(** * sibench: the command-line front end and the file-system connection

    A shallow embedding of [src/sibench/main.go] (argument validation and the
    construction of the job order in [startRun]) and of the file-backed
    connection [FileConnectionBase] (directory creation, [PutObject],
    [GetObject]), together with the properties of them that the
    specification states.

    Conventions.
    - Go's [int] is the 64-bit signed integer of the amd64 release build;
      [uint64] and [uint16] values are [Z] with the wrap-around written out.
    - Go strings are [string]; byte slices are [list byte].
    - An [error] result is [option error]: [None] is Go's [nil]. *)

From Stdlib Require Import ZArith Ascii String List Lia.
From Stdlib.Strings Require Import Byte.
From stdpp Require Import gmap strings list fin_maps.

Local Open Scope string_scope.

(** ** Go values used by both source files *)

Module Go.

(** Operands of a format string, kept unformatted, and Go's [error] values
    that the two files create or pass on. *)
#[warnings="-register-all"]
Inductive value : Type :=
| AInt (n : Z)
| AStr (s : string)
| AErr (e : error)
| ASlice (l : list value)
with error : Type :=
| Errorf (format : string) (args : list value)    (* fmt.Errorf *)
| ErrSyntax                                       (* strconv.ErrSyntax *)
| ErrRange                                        (* strconv.ErrRange *)
| Errno (code : string).                          (* an error of the operating system *)

Definition MaxUint16 : Z := 65535.
Definition MaxInt64 : Z := 2 ^ 63 - 1.
Definition MinInt64 : Z := - 2 ^ 63.

(** The values of Go's [int]. *)
Definition is_int (x : Z) : Prop := (MinInt64 <= x <= MaxInt64)%Z.

(** Conversions [uint64(x)] and [uint16(x)], and arithmetic in [uint64]. *)
Definition uint64 (x : Z) : Z := (x mod 2 ^ 64)%Z.
Definition uint16 (x : Z) : Z := (x mod 2 ^ 16)%Z.
Definition mul64 (x y : Z) : Z := uint64 (x * y).

(** *** Characters *)

(** The line feed that ends a printed line. *)
Definition LF : string := String (ascii_of_nat 10) EmptyString.

Definition code (c : ascii) : nat := nat_of_ascii c.

Definition is_digit (c : ascii) : bool :=
  (48 <=? code c)%nat && (code c <=? 57)%nat.

Definition is_nonzero_digit (c : ascii) : bool :=
  (49 <=? code c)%nat && (code c <=? 57)%nat.

Definition digit_val (c : ascii) : Z := (Z.of_nat (code c) - 48)%Z.

Definition to_lower (c : ascii) : ascii :=
  if (65 <=? code c)%nat && (code c <=? 90)%nat
  then ascii_of_nat (code c + 32) else c.

(** *** strconv.Atoi

    A decimal numeral with an optional sign.  A malformed numeral gives
    [(0, ErrSyntax)]; a numeral outside [int] gives the nearest bound and
    [ErrRange]. *)

Fixpoint decimal_from (acc : Z) (s : string) : option Z :=
  match s with
  | EmptyString => Some acc
  | String c rest =>
      if is_digit c then decimal_from (10 * acc + digit_val c)%Z rest else None
  end.

Definition decimal (s : string) : option Z := decimal_from 0 s.

Definition Atoi (s : string) : Z * option error :=
  let '(neg, body) :=
    match s with
    | String "-" rest => (true, rest)
    | String "+" rest => (false, rest)
    | _ => (false, s)
    end in
  match body with
  | EmptyString => (0%Z, Some ErrSyntax)
  | _ =>
      match decimal body with
      | None => (0%Z, Some ErrSyntax)
      | Some n =>
          if neg then
            if (n >? 2 ^ 63)%Z then (MinInt64, Some ErrRange) else ((- n)%Z, None)
          else
            if (n >=? 2 ^ 63)%Z then (MaxInt64, Some ErrRange) else (n, None)
      end
  end.

(** *** strings.EqualFold, on ASCII text *)

Fixpoint EqualFold (s t : string) : bool :=
  match s, t with
  | EmptyString, EmptyString => true
  | String a s', String b t' =>
      if Ascii.eqb (to_lower a) (to_lower b) then EqualFold s' t' else false
  | _, _ => false
  end.

(** *** strings.Split with a one-character separator *)

Fixpoint split_on (sep : ascii) (cur : string) (s : string) : list string :=
  match s with
  | EmptyString => [cur]
  | String c rest =>
      if Ascii.eqb c sep then cur :: split_on sep EmptyString rest
      else split_on sep (cur ++ String c EmptyString) rest
  end.

Definition Split (s : string) (sep : ascii) : list string :=
  split_on sep EmptyString s.

End Go.

(** ** The size pattern of [validateArguments]

    [FindStringSubmatch] of the compiled pattern: group 1 is a digit from 1
    to 9 followed by any number of digits, group 2 is one of the letters k,
    K, m, M.  The result is the leftmost place of the text where the pattern
    matches, with the text of the whole match and of its two groups.  The
    pattern is not anchored. *)

Module SizePattern.
Import Go.

(** The text is read byte by byte.  The classes of the pattern hold ASCII
    characters only, and no byte of a character of several bytes is an ASCII
    byte, so this is the match on characters. *)

Definition is_unit (c : ascii) : bool :=
  Ascii.eqb c "k" || Ascii.eqb c "K" || Ascii.eqb c "m" || Ascii.eqb c "M".

(** The longest run of digits at the head of the text, and what follows:
    the greedy [[0-9]*]. *)
Fixpoint span_digits (s : string) : string * string :=
  match s with
  | String c rest =>
      if is_digit c
      then let '(ds, tl) := span_digits rest in (String c ds, tl)
      else (EmptyString, s)
  | EmptyString => (EmptyString, EmptyString)
  end.

(** The pattern matched at the head of the text: the two groups. *)
Definition match_here (s : string) : option (string * string) :=
  match s with
  | String c rest =>
      if is_nonzero_digit c then
        let '(ds, tl) := span_digits rest in
        match tl with
        | String u _ =>
            if is_unit u then Some (String c ds, String u EmptyString) else None
        | EmptyString => None
        end
      else None
  | EmptyString => None
  end.

(** Try every start from the left; [None] is Go's nil slice. *)
Fixpoint FindStringSubmatch (s : string) : option (list string) :=
  match match_here s with
  | Some (g1, g2) => Some [g1 ++ g2; g1; g2]
  | None =>
      match s with
      | String _ rest => FindStringSubmatch rest
      | EmptyString => None
      end
  end.

(** The words of the pattern, read as a property of texts. *)
Fixpoint all_digits (s : string) : Prop :=
  match s with
  | String c rest => is_digit c = true /\ all_digits rest
  | EmptyString => True
  end.

Definition is_number (s : string) : Prop :=
  match s with
  | String c ds => is_nonzero_digit c = true /\ all_digits ds
  | EmptyString => False
  end.

(** [num] followed by the unit letter [u] occurs in [s] after [pre]. *)
Definition occurs_at (s pre num : string) (u : ascii) (post : string) : Prop :=
  s = pre ++ num ++ String u post /\ is_number num /\ is_unit u = true.

(** No occurrence of the pattern starts before this one. *)
Definition leftmost (s pre : string) : Prop :=
  forall pre' num' u' post',
    occurs_at s pre' num' u' post' -> (String.length pre <= String.length pre')%nat.

(** The factor that the unit letter stands for. *)
Definition unit_factor (u : ascii) : Z :=
  if Ascii.eqb u "m" || Ascii.eqb u "M" then 1048576%Z else 1024%Z.

End SizePattern.

(** ** [src/sibench/main.go] *)

Module Main.
Import Go.

(** The struct into which the command line is bound. *)
Record Arguments : Type := mkArguments {
  (* Command selection bools *)
  Server : bool;
  S3 : bool;
  Rados : bool;
  Run : bool;
  Verbose : bool;
  (* Common options *)
  Port : Z;
  Size : string;
  Objects : Z;
  Servers : string;
  RunTime : Z;
  RampUp : Z;
  RampDown : Z;
  JsonOutput : string;
  Targets : list string;
  (* S3 options *)
  S3AccessKey : string;
  S3SecretKey : string;
  S3Bucket : string;
  S3Port : Z;
  (* Rados options *)
  CephPool : string;
  CephUser : string;
  CephKey : string;
  (* Synthesized options *)
  Bucket : string;
  SizeInBytes : Z
}.

(** The assignment [args.SizeInBytes = v] through the pointer. *)
Definition set_SizeInBytes (args : Arguments) (v : Z) : Arguments :=
  {| Server := Server args; S3 := S3 args; Rados := Rados args; Run := Run args;
     Verbose := Verbose args; Port := Port args; Size := Size args;
     Objects := Objects args; Servers := Servers args; RunTime := RunTime args;
     RampUp := RampUp args; RampDown := RampDown args;
     JsonOutput := JsonOutput args; Targets := Targets args;
     S3AccessKey := S3AccessKey args; S3SecretKey := S3SecretKey args;
     S3Bucket := S3Bucket args; S3Port := S3Port args;
     CephPool := CephPool args; CephUser := CephUser args;
     CephKey := CephKey args; Bucket := Bucket args;
     SizeInBytes := v |}.

(** [validateArguments]: the checks, then the size in K or M turned into
    bytes.  The struct is changed through the pointer, so the new struct is
    returned with the error. *)
Definition validateArguments (args : Arguments) : Arguments * option error :=
  if (Port args <? 0)%Z || (Port args >? MaxUint16)%Z then
    (args, Some (Errorf "Port not in range: %v" [AInt (Port args)]))
  else if (S3Port args <? 0)%Z || (S3Port args >? MaxUint16)%Z then
    (args, Some (Errorf "S3 Port not in range: %v" [AInt (S3Port args)]))
  else
    match SizePattern.FindStringSubmatch (Size args) with
    | None => (args, Some (Errorf "Bad size specifier: %v" [AStr (Size args)]))
    | Some groups =>
        let '(val, _) := Atoi (nth 1 groups EmptyString) in
        let args := set_SizeInBytes args (mul64 (uint64 val) 1024) in
        let args :=
          if EqualFold (nth 2 groups EmptyString) "m"
          then set_SizeInBytes args (mul64 (SizeInBytes args) 1024)
          else args in
        (args, None)
    end.

(** The value that [Atoi] gives for the numeral of [n]: the number, or the
    largest [int] when the number does not fit. *)
Definition saturate (n : Z) : Z := if (n >=? 2 ^ 63)%Z then MaxInt64 else n.

(** The size in bytes as [validateArguments] computes it from the number
    [n] of the numeral and the unit letter. *)
Definition size_in_bytes (n : Z) (u : ascii) : Z :=
  let b := mul64 (uint64 (saturate n)) 1024 in
  if (Ascii.eqb u "m" || Ascii.eqb u "M")%bool then mul64 b 1024 else b.

(** Both ports are port numbers. *)
Definition ports_in_range (args : Arguments) : Prop :=
  (0 <= Port args <= MaxUint16)%Z /\ (0 <= S3Port args <= MaxUint16)%Z.

(** Modelled from the spec: the declaration of the [Order] struct is outside
    the files at hand.  The fields are those [startRun] assigns; the spec
    (section 3) gives their meaning: identifiers, sizes, the seed and the
    range bounds are unsigned 64-bit, the port is 16-bit, the credentials
    are a string-to-string map. *)
Module Order.
Record t : Type := mk {
  JobId : Z;
  ObjectSize : Z;
  Seed : Z;
  GeneratorType : string;
  RangeStart : Z;
  RangeEnd : Z;
  Targets : list string;
  ConnectionType : string;
  Bucket : string;
  Credentials : gmap string string;
  Port : Z
}.

(** The zero value of the struct. *)
Definition zero : t :=
  {| JobId := 0; ObjectSize := 0; Seed := 0; GeneratorType := "";
     RangeStart := 0; RangeEnd := 0; Targets := []; ConnectionType := "";
     Bucket := ""; Credentials := ∅; Port := 0 |}.
End Order.

(** Events of a run of the program that the outside can see. *)
Inductive event (Job : Type) : Type :=
| EvPrintf (format : string) (args : list value)      (* fmt.Printf *)
| EvRun (j : Job)                                     (* m.Run(&j) *)
| EvServe (port : Z)                                  (* StartForeman(port) *)
| EvWriteFile (name : string) (data : list byte) (perm : Z)  (* ioutil.WriteFile *)
| EvExit (code : Z).                                  (* os.Exit *)
Arguments EvPrintf {Job} format args.
Arguments EvRun {Job} j.
Arguments EvServe {Job} port.
Arguments EvWriteFile {Job} name data perm.
Arguments EvExit {Job} code.

(** How a function ends: it returns, or the process has exited. *)
Inductive outcome (A : Type) : Type :=
| Returned (a : A)
| Exited (code : Z).
Arguments Returned {A} a.
Arguments Exited {A} code.

Section Run.

(** What lies outside [main.go]: the report type, the clock, and the three
    calls into other code, each given by its result. *)
Variable Report : Type.
Variable zero_report : Report.
Variable now : Z.                                   (* time.Now().Unix() *)

(** Modelled from the spec: the declaration of the [Job] struct is outside
    the files at hand.  The spec (section 3): the order, the list of foreman
    addresses, the timing parameters and the accumulating report. *)
Record Job : Type := mkJob {
  servers : list string;
  serverPort : Z;
  runTime : Z;
  rampUp : Z;
  rampDown : Z;
  order : Order.t;
  report : Report
}.

Variable setArguments : Job -> Arguments -> Job.    (* j.setArguments(args) *)
Variable Manager_Run : Job -> Job * option error.   (* m.Run(&j) *)
Variable MarshalIndent : Report -> string -> string -> list byte * option error.
Variable WriteFile_result : string -> list byte -> Z -> option error.
Variable StartForeman_result : Z -> option error.   (* StartForeman(port) *)
Variable prettyPrint : Arguments -> string.         (* the struct as JSON text *)

(** The program's effects: the events so far are threaded through, and an
    exit stops what follows. *)
Definition IO (A : Type) : Type :=
  list (event Job) -> list (event Job) * outcome A.

Definition ret {A} (a : A) : IO A := fun tr => (tr, Returned a).

Definition bind {A B} (m : IO A) (k : A -> IO B) : IO B :=
  fun tr =>
    match m tr with
    | (tr', Returned a) => k a tr'
    | (tr', Exited c) => (tr', Exited c)
    end.

Notation "x <- m ;; k" := (bind m (fun x => k))
  (at level 100, m at next level, right associativity).
Notation "m ;;; k" := (bind m (fun _ => k))
  (at level 100, right associativity).

Definition emit (e : event Job) : IO unit := fun tr => ((tr ++ [e])%list, Returned tt).

Definition Printf (format : string) (args : list value) : IO unit :=
  emit (EvPrintf format args).

Definition Exit {A} (c : Z) : IO A := fun tr => ((tr ++ [EvExit c])%list, Exited c).

Definition Manager_dot_Run (j : Job) : IO (Job * option error) :=
  emit (EvRun j) ;;; ret (Manager_Run j).

Definition WriteFile (name : string) (data : list byte) (perm : Z) : IO (option error) :=
  emit (EvWriteFile name data perm) ;;; ret (WriteFile_result name data perm).

(** [dieOnError]: on an error, print the message and the error and exit
    with a non-zero code.  The variadic [a] is handed to [Printf] as one
    operand, as the source does. *)
Definition dieOnError (err : option error) (format : string) (a : list value) : IO unit :=
  match err with
  | Some e =>
      Printf format [ASlice a] ;;;
      Printf (": %v" ++ LF) [AErr e] ;;;
      Exit (-1)
  | None => ret tt
  end.

(** The first part of [startRun]: the job and its order, from the
    arguments (up to the call of [setArguments]). *)
Definition buildJob (args : Arguments) : Job :=
  let o := Order.zero in
  let o :=
    {| Order.JobId := 1;
       Order.ObjectSize := SizeInBytes args;
       Order.Seed := uint64 now;
       Order.GeneratorType := "prng";
       Order.RangeStart := 0;
       Order.RangeEnd := uint64 (Objects args);
       Order.Targets := Targets args;
       Order.ConnectionType := Order.ConnectionType o;
       Order.Bucket := Order.Bucket o;
       Order.Credentials := Order.Credentials o;
       Order.Port := Order.Port o |} in
  let o :=
    if S3 args then
      {| Order.JobId := Order.JobId o; Order.ObjectSize := Order.ObjectSize o;
         Order.Seed := Order.Seed o; Order.GeneratorType := Order.GeneratorType o;
         Order.RangeStart := Order.RangeStart o; Order.RangeEnd := Order.RangeEnd o;
         Order.Targets := Order.Targets o;
         Order.ConnectionType := "s3";
         Order.Bucket := S3Bucket args;
         Order.Credentials :=
           <["secret_key" := S3SecretKey args]>
             (<["access_key" := S3AccessKey args]> ∅);
         Order.Port := uint16 (S3Port args) |}
    else
      {| Order.JobId := Order.JobId o; Order.ObjectSize := Order.ObjectSize o;
         Order.Seed := Order.Seed o; Order.GeneratorType := Order.GeneratorType o;
         Order.RangeStart := Order.RangeStart o; Order.RangeEnd := Order.RangeEnd o;
         Order.Targets := Order.Targets o;
         Order.ConnectionType := "rados";
         Order.Bucket := CephPool args;
         Order.Credentials :=
           <["key" := CephKey args]> (<["username" := CephUser args]> ∅);
         Order.Port := Order.Port o |} in
  {| servers := Split (Servers args) ",";
     serverPort := uint16 (Port args);
     runTime := uint64 (RunTime args);
     rampUp := uint64 (RampUp args);
     rampDown := uint64 (RampDown args);
     order := o;
     report := zero_report |}.

(** [startRun]: create the job and execute it on the servers, then encode
    the report and write it out. *)
Definition startRun (args : Arguments) : IO unit :=
  let j := buildJob args in
  let j := setArguments j args in
  r <- Manager_dot_Run j ;;
  let '(j, err) := r in
  match err with
  | Some e => Printf ("Error running job: %v" ++ LF) [AErr e]
  | None => ret tt
  end ;;;
  let '(jsonReport, err) := MarshalIndent (report j) "" "  " in
  dieOnError err "Unable to encode results as json" [] ;;;
  (if negb (String.eqb (JsonOutput args) "") then
     err <- WriteFile (JsonOutput args) jsonReport 420 ;;
     dieOnError err "Unable to write json report to file: %v" [AStr (JsonOutput args)]
   else ret tt) ;;;
  Printf ("Done" ++ LF) [].

(** [startServer]: start a server, listening on a TCP port. *)
Definition startServer (args : Arguments) : IO unit :=
  emit (EvServe (uint16 (Port args))) ;;;
  dieOnError (StartForeman_result (uint16 (Port args))) "Failure creating server" [].

(** [main], from the struct that the command line was bound to: validate,
    then serve or run as the command says. *)
Definition main (args : Arguments) : IO unit :=
  let '(args, err) := validateArguments args in
  dieOnError err "Failure validating arguments" [] ;;;
  (if Verbose args then Printf ("%v" ++ LF) [AStr (prettyPrint args)] else ret tt) ;;;
  (if Server args then startServer args else ret tt) ;;;
  (if Run args then startRun args else ret tt).

End Run.

(** The arguments of [sibench s3 run] or [sibench rados run] on one target,
    with the options [-s], [-o] and [-j] as given and every other option at
    the default of the usage text. *)
Definition run_args (s3 : bool) (size : string) (objects : Z) (json : string)
  : Arguments :=
  {| Server := false; S3 := s3; Rados := negb s3; Run := true; Verbose := false;
     Port := 5150; Size := size; Objects := objects; Servers := "localhost";
     RunTime := 30; RampUp := 5; RampDown := 2; JsonOutput := json;
     Targets := ["target"];
     S3AccessKey := "access"; S3SecretKey := "secret"; S3Bucket := "sibench";
     S3Port := 7480;
     CephPool := "sibench"; CephUser := "admin"; CephKey := "cephkey";
     Bucket := ""; SizeInBytes := 0 |}.

End Main.

(** ** The file-backed connection, [FileConnectionBase]

    The connection works on a tree of directories and files.  A path is the
    list of its components from the root of the name space, outermost first;
    the root itself is the empty list and always exists, and a path that
    does not start at the root is read from the root.  The empty string is
    no path: it names no place in the tree.

    A directory that [os.Mkdir] makes gets the permission bits it is made
    with, less the umask of the process; a directory whose bits are not
    recorded grants everything.  A process that is not privileged needs the
    search bit of a directory to get to an entry in it, and the write bit as
    well to make one.  The tree holds what the process can reach: an entry
    that is in the tree is seen by [Stat], and is removed by
    [os.RemoveAll].  What the system refuses on an open file is a fault of
    the device, below.  The calls to [logger] only add lines to the log and
    are left out. *)

Module FileConn.
Import Go.
Local Open Scope list_scope.

Definition path : Type := list string.

Inductive node : Type :=
| Dir
| File (content : list byte).

Abbreviation filesystem := (gmap (list string) node).

(** *** path/filepath *)

Definition is_component (s : string) : bool :=
  negb (String.eqb s "") && negb (String.eqb s ".").

Definition components (s : string) : list string :=
  List.filter is_component (Split s "/").

(** The lexical removal of [..]: it drops the component before it, and at
    the root it drops only itself.  [seen] is the cleaned part, innermost
    first. *)
Fixpoint clean_from (seen : list string) (cs : list string) : path :=
  match cs with
  | [] => rev seen
  | c :: cs' =>
      if String.eqb c ".." then clean_from (tl seen) cs'
      else clean_from (c :: seen) cs'
  end.

(** The place in the tree that [filepath.Join] of the elements names:
    empty elements are ignored and the result is cleaned. *)
Definition Join (elems : list string) : path :=
  clean_from [] (flat_map components elems).

(** A path as [os.MkdirAll] and [os.RemoveAll] receive it: the empty
    string, or a path to a place in the tree. *)
Inductive pathname : Type :=
| Nowhere
| At (p : path).

(** [filepath.Join], as a path name: the empty string when every element is
    empty, and else the cleaned path, which is never empty. *)
Definition filepath_Join (elems : list string) : pathname :=
  if forallb (fun e => String.eqb e "") elems then Nowhere else At (Join elems).

(** *** The directory tree: [os.Stat] *)

Definition Stat (fs : filesystem) (p : path) : option node :=
  match p with
  | [] => Some Dir
  | _ => fs !! p
  end.

Definition parent (p : path) : path := removelast p.

(** Every entry other than the root lies in a directory. *)
Definition well_formed (fs : filesystem) : Prop :=
  forall p n, fs !! p = Some n -> p <> [] /\ Stat fs (parent p) = Some Dir.

(** *** The device behind the files

    Modelled from the spec: [Open] and the file type it returns, with
    [Write], [Read], [Size] and [Close], are declared outside the files at
    hand.  The spec (section 4.2) allows a backend that accepts or delivers
    only part of a buffer per call and that fails with an I/O error.  So
    every call on a file asks the device, which answers with the number of
    bytes it grants to this call and with the fault it reports, if any. *)

Record reply : Type := mkReply {
  granted : nat;
  fault : option error
}.

(** The state: the tree; the permission bits of directories, where they
    are known, as they apply to the process (it owns the directories that
    it makes); whether the process passes every permission check, and its
    umask; the number of calls made on the device so far, and the number of
    open descriptors. *)
Record World : Type := mkWorld {
  fs : filesystem;
  modes : gmap (list string) Z;
  privileged : bool;
  umask : Z;
  clock : nat;
  descriptors : nat
}.

Record FileDesc : Type := mkFile {
  fd_name : path;
  fd_pos : nat
}.

(** A byte slice that is written through: [data] is the backing array from
    the start of the slice, so its length is [cap]; the first [len] bytes
    are the slice. *)
Record Buffer : Type := mkBuffer {
  data : list byte;
  len : nat
}.

Definition cap (b : Buffer) : nat := length (data b).

Definition valid (b : Buffer) : Prop := (len b <= cap b)%nat.

Definition O_RDONLY : Z := 0.
Definition O_WRONLY : Z := 1.
Definition O_CREAT : Z := 64.
Definition O_TRUNC : Z := 512.

Definition has_flag (flags f : Z) : bool := negb (Z.land flags f =? 0)%Z.

(** *** Making and removing directories: [os.Mkdir], [os.MkdirAll],
    [os.RemoveAll] *)

Definition S_IWUSR : Z := 128.
Definition S_IXUSR : Z := 64.

(** The longest name of one entry, in bytes, and the length in bytes that
    no path reaches: a path counts one byte for the separator before each
    component and the bytes of the component. *)
Definition NAME_MAX : nat := 255.
Definition PATH_MAX : nat := 4096.

Definition path_bytes (p : path) : nat :=
  fold_right (fun c n => S (String.length c) + n)%nat O p.

Definition mode_of (w : World) (d : list string) : Z :=
  match modes w !! d with
  | Some m => m
  | None => 511
  end.

(** Whether the process passes a check of one permission bit of a
    directory. *)
Definition allowed (w : World) (d : path) (bit : Z) : bool :=
  privileged w || has_flag (mode_of w d) bit.

(** The state with a new directory of the given bits. *)
Definition made (w : World) (p : path) (mode : Z) : World :=
  {| fs := <[p := Dir]> (fs w); modes := <[p := mode]> (modes w);
     privileged := privileged w; umask := umask w;
     clock := clock w; descriptors := descriptors w |}.

(** [os.Mkdir]: the path must not be too long; the parent has to be a
    directory that the process may search; the name must not be too long;
    nothing may be at the path; and the process has to be allowed to write
    to the parent.  The new directory has the bits of [perm] that the umask
    leaves. *)
Definition Mkdir (w : World) (p : path) (perm : Z) : World * option error :=
  if (PATH_MAX <=? path_bytes p)%nat then (w, Some (Errno "ENAMETOOLONG"))
  else
    match Stat (fs w) (parent p) with
    | None => (w, Some (Errno "ENOENT"))
    | Some (File _) => (w, Some (Errno "ENOTDIR"))
    | Some Dir =>
        if negb (allowed w (parent p) S_IXUSR) then (w, Some (Errno "EACCES"))
        else if (NAME_MAX <? String.length (List.last p ""))%nat
        then (w, Some (Errno "ENAMETOOLONG"))
        else
          match Stat (fs w) p with
          | Some _ => (w, Some (Errno "EEXIST"))
          | None =>
              if negb (allowed w (parent p) S_IWUSR)
              then (w, Some (Errno "EACCES"))
              else (made w p (Z.ldiff perm (umask w)), None)
          end
    end.

(** [os.MkdirAll], on the path with its innermost component first: if the
    path is a directory there is nothing to do; a file in its place is an
    error; otherwise the parent is made first (unless it is the root) and
    then the directory itself, and an error of that last step is dropped
    when the directory is there after all.  What was made before an error
    stays. *)
Fixpoint MkdirAll_rev (rp : list string) (perm : Z) (w : World)
  : World * option error :=
  match Stat (fs w) (rev rp) with
  | Some Dir => (w, None)
  | Some (File _) => (w, Some (Errno "ENOTDIR"))
  | None =>
      match rp with
      | [] => (w, None)
      | _ :: rparent =>
          let '(w1, err) :=
            match rparent with
            | [] => (w, None)
            | _ => MkdirAll_rev rparent perm w
            end in
          match err with
          | Some e => (w1, Some e)
          | None =>
              let '(w2, err) := Mkdir w1 (rev rp) perm in
              match err with
              | Some e =>
                  match Stat (fs w2) (rev rp) with
                  | Some Dir => (w2, None)
                  | _ => (w2, Some e)
                  end
              | None => (w2, None)
              end
          end
      end
  end.

(** On the empty string the first [Stat] fails, there is no parent to make,
    and [Mkdir] fails with ENOENT. *)
Definition MkdirAll (path : pathname) (perm : Z) (w : World) : World * option error :=
  match path with
  | Nowhere => (w, Some (Errno "ENOENT"))
  | At p => MkdirAll_rev (rev p) perm w
  end.

(** What stops the way from a directory to an entry below it, which is
    looked up component by component: a directory that the process may not
    search, or a file where a directory has to be.  A missing directory
    stops the way too, but that is no error for [os.RemoveAll]. *)
Fixpoint obstacle (w : World) (from : path) (rest : list string) : option error :=
  match rest with
  | [] => None
  | c :: rest' =>
      if negb (allowed w from S_IXUSR) then Some (Errno "EACCES")
      else
        match rest' with
        | [] => None
        | _ =>
            match Stat (fs w) (from ++ [c]) with
            | Some Dir => obstacle w (from ++ [c]) rest'
            | Some (File _) => Some (Errno "ENOTDIR")
            | None => None
            end
        end
  end.

(** The state without a path and all that is below it. *)
Definition removed (w : World) (p : path) : World :=
  {| fs := filter (fun kv => ¬ (p `prefix_of` kv.1)) (fs w);
     modes := filter (fun kv => ¬ (p `prefix_of` kv.1)) (modes w);
     privileged := privileged w; umask := umask w;
     clock := clock w; descriptors := descriptors w |}.

(** [os.RemoveAll]: nothing is done for the empty string.  Otherwise the
    path and everything below it go, and a path that is not there is no
    error.  When the way to the path is stopped by a file the error is
    ENOTDIR, and when it is stopped by a directory that the process may not
    search the error is EACCES; in a tree that holds what the process can
    reach there is nothing at such a path or below it, so nothing goes. *)
Definition RemoveAll (path : pathname) (w : World) : World * option error :=
  match path with
  | Nowhere => (w, None)
  | At p => (removed w p, obstacle w [] p)
  end.

Section Device.

Variable dev : nat -> reply.

Definition ask (w : World) : reply * World :=
  (dev (clock w),
   {| fs := fs w; modes := modes w; privileged := privileged w; umask := umask w;
      clock := S (clock w); descriptors := descriptors w |}).

Definition with_fs (w : World) (f : filesystem) : World :=
  {| fs := f; modes := modes w; privileged := privileged w; umask := umask w;
     clock := clock w; descriptors := descriptors w |}.

(** The state after one call on the device that changes nothing else. *)
Definition ticked (w : World) : World :=
  {| fs := fs w; modes := modes w; privileged := privileged w; umask := umask w;
     clock := S (clock w); descriptors := descriptors w |}.

Definition opened (w : World) : World :=
  {| fs := fs w; modes := modes w; privileged := privileged w; umask := umask w;
     clock := clock w; descriptors := S (descriptors w) |}.

(** [Open(filename, flags, mode)] *)
Definition Open (filename : path) (flags mode : Z) (w : World)
  : World * (FileDesc + error) :=
  let '(r, w) := ask w in
  match fault r with
  | Some e => (w, inr e)
  | None =>
      match Stat (fs w) filename with
      | Some Dir => (w, inr (Errno "EISDIR"))
      | Some (File c) =>
          let w :=
            if has_flag flags O_TRUNC
            then with_fs w (<[filename := File []]> (fs w)) else w in
          (opened w, inl {| fd_name := filename; fd_pos := 0 |})
      | None =>
          if has_flag flags O_CREAT then
            match Stat (fs w) (parent filename) with
            | Some Dir =>
                (opened (with_fs w (<[filename := File []]> (fs w))),
                 inl {| fd_name := filename; fd_pos := 0 |})
            | Some (File _) => (w, inr (Errno "ENOTDIR"))
            | None => (w, inr (Errno "ENOENT"))
            end
          else (w, inr (Errno "ENOENT"))
      end
  end.

(** [fd.Close()] *)
Definition Close (fd : FileDesc) (w : World) : World :=
  {| fs := fs w; modes := modes w; privileged := privileged w; umask := umask w;
     clock := clock w; descriptors := pred (descriptors w) |}.

(** [fd.Size()] *)
Definition Size (fd : FileDesc) (w : World) : World * (Z * option error) :=
  let '(r, w) := ask w in
  match fault r with
  | Some e => (w, (0%Z, Some e))
  | None =>
      match fs w !! fd_name fd with
      | Some (File c) => (w, (Z.of_nat (length c), None))
      | _ => (w, (0%Z, Some (Errno "EBADF")))
      end
  end.

(** [fd.Write(p)]: the device takes the first [n] bytes of [p], where [n]
    is what it grants, at most the length of [p]; they go into the file at
    the position of the descriptor. *)
Definition Write (fd : FileDesc) (p : list byte) (w : World)
  : World * FileDesc * (nat * option error) :=
  let '(r, w) := ask w in
  match fs w !! fd_name fd with
  | Some (File c) =>
      let n := Nat.min (granted r) (length p) in
      let c' := take (fd_pos fd) c ++ take n p ++ drop (fd_pos fd + n) c in
      (with_fs w (<[fd_name fd := File c']> (fs w)),
       {| fd_name := fd_name fd; fd_pos := fd_pos fd + n |},
       (n, fault r))
  | _ => (w, fd, (0, Some (Errno "EBADF")))
  end.

(** [fd.Read(buffer[start:])]: the device delivers [n] bytes of the file
    from the position of the descriptor, where [n] is what it grants, at
    most the length of the slice and at most what is left of the file; they
    go into the backing array of the buffer from [start] on. *)
Definition Read (fd : FileDesc) (buffer : Buffer) (start : nat) (w : World)
  : World * FileDesc * Buffer * (nat * option error) :=
  let '(r, w) := ask w in
  match fs w !! fd_name fd with
  | Some (File c) =>
      let n := Nat.min (granted r)
                 (Nat.min (len buffer - start) (length c - fd_pos fd)) in
      let chunk := take n (drop (fd_pos fd) c) in
      (w,
       {| fd_name := fd_name fd; fd_pos := fd_pos fd + n |},
       {| data := take start (data buffer) ++ chunk ++ drop (start + n) (data buffer);
          len := len buffer |},
       (n, fault r))
  | _ => (w, fd, buffer, (0, Some (Errno "EBADF")))
  end.

(** *** The connection *)

Record FileConnectionBase : Type := mkConn {
  root : string;
  dir : string
}.

Definition InitFileConnectionBase (conn : FileConnectionBase) (root dir : string)
  : FileConnectionBase :=
  {| root := root; dir := dir |}.

Definition CreateDirectory (conn : FileConnectionBase) (w : World)
  : World * option error :=
  let path := filepath_Join [root conn; dir conn] in
  MkdirAll path 420 w.

Definition DeleteDirectory (conn : FileConnectionBase) (w : World)
  : World * option error :=
  let path := filepath_Join [root conn; dir conn] in
  RemoveAll path w.

(** The loop of [PutObject].  It runs while the buffer is not empty; a
    [Write] with a nil error ends it with that nil error, and after any
    other [Write] it goes on with the bytes from [n] on.  [None]: the loop
    is still running when the fuel is used up. *)
Fixpoint PutObject_loop (fuel : nat) (fd : FileDesc) (buffer : list byte) (w : World)
  : option (World * option error) :=
  match buffer with
  | [] => Some (w, None)
  | _ :: _ =>
      match fuel with
      | O => None
      | S fuel' =>
          let '(w, fd, (n, err)) := Write fd buffer w in
          match err with
          | None => Some (w, err)
          | Some _ => PutObject_loop fuel' fd (drop n buffer) w
          end
      end
  end.

Definition PutObject (fuel : nat) (conn : FileConnectionBase)
  (key : string) (id : Z) (buffer : list byte) (w : World)
  : option (World * option error) :=
  let filename := Join [root conn; dir conn; key] in
  let '(w, r) := Open filename (Z.lor (Z.lor O_WRONLY O_CREAT) O_TRUNC) 420 w in
  match r with
  | inr err => Some (w, Some err)
  | inl fd =>
      match PutObject_loop fuel fd buffer w with
      | Some (w, err) => Some (Close fd w, err)
      | None => None
      end
  end.

(** The loop of [GetObject]: while bytes remain, read into the buffer from
    [start] on; an error of [Read] ends it. *)
Fixpoint GetObject_loop (fuel : nat) (fd : FileDesc) (buffer : Buffer)
  (start : nat) (remaining : Z) (w : World)
  : option (World * Buffer * option error) :=
  if (remaining >? 0)%Z then
    match fuel with
    | O => None
    | S fuel' =>
        let '(w, fd, buffer, (n, err)) := Read fd buffer start w in
        match err with
        | Some e => Some (w, buffer, Some e)
        | None =>
            GetObject_loop fuel' fd buffer (start + n)
              (remaining - Z.of_nat n)%Z w
        end
    end
  else Some (w, buffer, None).

Definition GetObject (fuel : nat) (conn : FileConnectionBase)
  (key : string) (id : Z) (buffer : Buffer) (w : World)
  : option (World * Buffer * option error) :=
  let filename := Join [root conn; dir conn; key] in
  let '(w, r) := Open filename O_RDONLY 420 w in
  match r with
  | inr err => Some (w, buffer, Some err)
  | inl fd =>
      let '(w, (remaining, err)) := Size fd w in
      match err with
      | Some e => Some (Close fd w, buffer, Some e)
      | None =>
          if negb (Z.of_nat (cap buffer) =? remaining)%Z then
            Some (Close fd w, buffer,
                  Some (Errorf "File has wrong size: expected %v, but got %v"
                          [AInt (Z.of_nat (cap buffer)); AInt remaining]))
          else
            match GetObject_loop fuel fd buffer 0 remaining w with
            | Some (w, buffer, err) => Some (Close fd w, buffer, err)
            | None => None
            end
      end
  end.

Definition InvalidateCache (conn : FileConnectionBase) : option error := None.

(** The object stored under a key, if there is one. *)
Definition stored (conn : FileConnectionBase) (key : string) (w : World)
  : option (list byte) :=
  match Stat (fs w) (Join [root conn; dir conn; key]) with
  | Some (File c) => Some c
  | _ => None
  end.

End Device.

(** An empty tree, for a privileged process and for one that is not. *)
Definition fresh_world : World :=
  {| fs := ∅; modes := ∅; privileged := true; umask := 18;
     clock := 0; descriptors := 0 |}.

Definition user_world : World :=
  {| fs := ∅; modes := ∅; privileged := false; umask := 18;
     clock := 0; descriptors := 0 |}.

(** A mounted tree with the directory of a connection in it, made by a
    privileged process, and two devices: one that takes or delivers one
    byte per call and reports no fault, and one that opens files and then
    fails every call. *)
Definition bench_conn : FileConnectionBase :=
  {| root := "/mnt/ceph"; dir := "bench" |}.

Definition bench_world : World :=
  fst (CreateDirectory bench_conn fresh_world).

(** The same tree with a two-byte object stored under the key obj. *)
Definition object_world : World :=
  with_fs bench_world
    (<[Join [root bench_conn; dir bench_conn; "obj"] := File ["001"%byte; "002"%byte]]>
       (fs bench_world)).

Definition one_byte_device : nat -> reply :=
  fun _ => {| granted := 1; fault := None |}.

Definition broken_device : nat -> reply :=
  fun t =>
    match t with
    | O => {| granted := 0; fault := None |}
    | S _ => {| granted := 0; fault := Some (Errno "EIO") |}
    end.

End FileConn.

(** ** Text helpers for stating properties of [strings.Split] *)

Module Text.

(** [strings.Join] with a one-character separator. *)
Fixpoint Join (l : list string) (sep : ascii) : string :=
  match l with
  | [] => EmptyString
  | [s] => s
  | s :: rest => s ++ String sep (Join rest sep)
  end.

(** How often a character occurs in a text, and whether it occurs. *)
Fixpoint count (c : ascii) (s : string) : nat :=
  match s with
  | EmptyString => O
  | String d rest => (if Ascii.eqb d c then 1 else 0) + count c rest
  end.

End Text.

(** ** Sample devices and connections *)

Module Samples.
Import Go FileConn.

(** A device that serves three calls with one byte each and reports a
    fault on every call after them. *)
Definition flaky_device : nat -> reply :=
  fun t =>
    if (t <? 3)%nat then {| granted := 1; fault := None |}
    else {| granted := 1; fault := Some (Errno "EIO") |}.

(** A device that takes or delivers up to eight bytes per call. *)
Definition good_device : nat -> reply :=
  fun _ => {| granted := 8; fault := None |}.

(** A device that opens a file, then twice takes one byte and reports a
    fault all the same, then takes one byte without a fault. *)
Definition stuttering_device : nat -> reply :=
  fun t =>
    match t with
    | 1 | 2 => {| granted := 1; fault := Some (Errno "EINTR") |}
    | _ => {| granted := 1; fault := None |}
    end%nat.

(** A connection whose directory would lie below the object stored in
    [object_world]. *)
Definition blocked_conn : FileConnectionBase :=
  {| root := "/mnt/ceph"; dir := "bench/obj/sub" |}.

(** A connection whose directory has not been created in [bench_world]. *)
Definition absent_conn : FileConnectionBase :=
  {| root := "/mnt/ceph"; dir := "other" |}.

End Samples.

(** * Properties *)

(** ** The size pattern finds the leftmost occurrence *)

Module SizePatternFacts.
Import Go SizePattern.

Lemma unit_cases u :
  is_unit u = true -> u = "k"%char \/ u = "K"%char \/ u = "m"%char \/ u = "M"%char.
Proof.
  unfold is_unit. rewrite !orb_true_iff, !Ascii.eqb_eq. tauto.
Qed.

Lemma unit_not_digit u : is_unit u = true -> is_digit u = false.
Proof.
  intros H. destruct (unit_cases u H) as [->|[->|[->| ->]]]; reflexivity.
Qed.

Lemma nonzero_digit_is_digit c : is_nonzero_digit c = true -> is_digit c = true.
Proof.
  unfold is_nonzero_digit, is_digit. rewrite !andb_true_iff, !Nat.leb_le. lia.
Qed.

Lemma span_digits_app ds rest :
  all_digits ds ->
  match rest with String c _ => is_digit c = false | EmptyString => True end ->
  span_digits (ds ++ rest) = (ds, rest).
Proof.
  induction ds as [|c ds IH]; simpl; intros Hd Hr.
  - destruct rest as [|c r]; simpl; [reflexivity | now rewrite Hr].
  - destruct Hd as [Hc Hd]. rewrite Hc, (IH Hd Hr). reflexivity.
Qed.

Lemma span_digits_spec s ds tl :
  span_digits s = (ds, tl) -> s = ds ++ tl /\ all_digits ds.
Proof.
  revert ds tl. induction s as [|c s IH]; simpl; intros ds tl H.
  - inversion H; subst. now split.
  - destruct (is_digit c) eqn:Hc.
    + destruct (span_digits s) as [ds' tl'] eqn:Hs. inversion H; subst.
      destruct (IH _ _ eq_refl) as [-> Hd]. simpl. now split.
    + inversion H; subst. now split.
Qed.

(** At the head of a text the pattern can match in one way only. *)
Lemma match_here_complete num u post :
  is_number num -> is_unit u = true ->
  match_here (num ++ String u post) = Some (num, String u EmptyString).
Proof.
  intros Hn Hu. destruct num as [|c ds]; [contradiction|].
  destruct Hn as [Hc Hd]. simpl. rewrite Hc.
  rewrite (span_digits_app ds (String u post) Hd (unit_not_digit u Hu)).
  now rewrite Hu.
Qed.

Lemma match_here_sound s g1 g2 :
  match_here s = Some (g1, g2) ->
  exists u post, g2 = String u EmptyString /\ occurs_at s EmptyString g1 u post.
Proof.
  destruct s as [|c rest]; simpl; [discriminate|].
  destruct (is_nonzero_digit c) eqn:Hc; [|discriminate].
  destruct (span_digits rest) as [ds tl] eqn:Hs.
  destruct tl as [|u post]; [discriminate|].
  destruct (is_unit u) eqn:Hu; [|discriminate].
  intros H; inversion H; subst.
  destruct (span_digits_spec _ _ _ Hs) as [-> Hd].
  exists u, post. repeat split; auto.
Qed.

Lemma occurs_at_tail c s pre num u post :
  occurs_at (String c s) (String c pre) num u post <-> occurs_at s pre num u post.
Proof.
  unfold occurs_at. simpl. split; intros (H1 & H2 & H3); repeat split; auto.
  - now inversion H1.
  - now rewrite H1.
Qed.

(** An occurrence before which there is none is what the search returns. *)
Lemma Find_leftmost s pre num u post :
  occurs_at s pre num u post -> leftmost s pre ->
  FindStringSubmatch s = Some [num ++ String u EmptyString; num; String u EmptyString].
Proof.
  revert s. induction pre as [|c pre IH]; intros s Hocc Hleft.
  - destruct Hocc as (-> & Hn & Hu). simpl "++".
    destruct num as [|d ds]; [contradiction|].
    assert (Hm := match_here_complete (String d ds) u post Hn Hu).
    simpl "++" in Hm. simpl. simpl in Hm. now rewrite Hm.
  - destruct s as [|c' s]; [destruct Hocc as (H & _); discriminate H|].
    assert (c' = c) as ->.
    { destruct Hocc as (H & _). simpl in H. now inversion H. }
    destruct (match_here (String c s)) as [[g1 g2]|] eqn:Hm.
    + destruct (match_here_sound _ _ _ Hm) as (u' & post' & _ & Hocc').
      specialize (Hleft _ _ _ _ Hocc'). simpl in Hleft. lia.
    + change (FindStringSubmatch (String c s))
        with (match match_here (String c s) with
              | Some (g1, g2) => Some [g1 ++ g2; g1; g2]
              | None => FindStringSubmatch s
              end).
      rewrite Hm. apply IH.
      * exact (proj1 (occurs_at_tail _ _ _ _ _ _) Hocc).
      * intros pre' num' u' post' H'.
        assert (Hs := proj2 (occurs_at_tail c s pre' num' u' post') H').
        specialize (Hleft _ _ _ _ Hs). simpl in Hleft. lia.
Qed.

(** Among the occurrences of the pattern in a text there is a leftmost one. *)
Lemma leftmost_exists s pre num u post :
  occurs_at s pre num u post ->
  exists pre1 num1 u1 post1, occurs_at s pre1 num1 u1 post1 /\ leftmost s pre1.
Proof.
  revert s. induction pre as [|c pre IH]; intros s Hocc.
  - exists EmptyString, num, u, post. split; [assumption|].
    intros ? ? ? ? _. simpl. lia.
  - destruct s as [|c' s]; [destruct Hocc as (H & _); discriminate H|].
    assert (c' = c) as ->.
    { destruct Hocc as (H & _). simpl in H. now inversion H. }
    destruct (match_here (String c s)) as [[g1 g2]|] eqn:Hm.
    + destruct (match_here_sound _ _ _ Hm) as (u' & post' & _ & Hocc').
      exists EmptyString, g1, u', post'. split; [assumption|].
      intros ? ? ? ? _. simpl. lia.
    + apply (proj1 (occurs_at_tail _ _ _ _ _ _)) in Hocc.
      destruct (IH _ Hocc) as (pre1 & num1 & u1 & post1 & H1 & Hl).
      exists (String c pre1), num1, u1, post1. split.
      * exact (proj2 (occurs_at_tail _ _ _ _ _ _) H1).
      * intros pre' num' u' post' H'.
        destruct pre' as [|c'' pre''].
        -- destruct H' as (E & Hn & Hu).
           change (String c s = num' ++ String u' post') in E. rewrite E in Hm.
           rewrite (match_here_complete _ _ _ Hn Hu) in Hm. discriminate.
        -- assert (c'' = c) as ->.
           { destruct H' as (H & _). simpl in H. now inversion H. }
           apply (proj1 (occurs_at_tail _ _ _ _ _ _)) in H'.
           specialize (Hl _ _ _ _ H'). simpl. lia.
Qed.

(** What the search returns is the leftmost occurrence. *)
Lemma Find_Some s groups :
  FindStringSubmatch s = Some groups ->
  exists pre num u post,
    occurs_at s pre num u post /\ leftmost s pre /\
    groups = [num ++ String u EmptyString; num; String u EmptyString].
Proof.
  revert groups. induction s as [|c s IH]; intros groups H.
  - discriminate H.
  - change (FindStringSubmatch (String c s))
      with (match match_here (String c s) with
            | Some (g1, g2) => Some [g1 ++ g2; g1; g2]
            | None => FindStringSubmatch s
            end) in H.
    destruct (match_here (String c s)) as [[g1 g2]|] eqn:Hm.
    + destruct (match_here_sound _ _ _ Hm) as (u & post & -> & Hocc).
      inversion H; subst. exists EmptyString, g1, u, post.
      repeat split; try apply Hocc. intros ? ? ? ? _. simpl. lia.
    + destruct (IH _ H) as (pre & num & u & post & Hocc & Hl & ->).
      exists (String c pre), num, u, post. repeat split.
      * now rewrite (proj1 Hocc).
      * apply Hocc.
      * apply Hocc.
      * intros pre' num' u' post' H'. destruct pre' as [|c' pre'].
        -- destruct H' as (E & Hn & Hu).
           change (String c s = num' ++ String u' post') in E. rewrite E in Hm.
           rewrite (match_here_complete _ _ _ Hn Hu) in Hm. discriminate.
        -- assert (c' = c) as ->.
           { destruct H' as (H' & _). simpl in H'. now inversion H'. }
           apply (proj1 (occurs_at_tail _ _ _ _ _ _)) in H'.
           specialize (Hl _ _ _ _ H'). simpl. lia.
Qed.

(** Without an occurrence the search returns nil. *)
Lemma Find_None s :
  FindStringSubmatch s = None ->
  forall pre num u post, ~ occurs_at s pre num u post.
Proof.
  intros HN pre num u post Hocc.
  destruct (leftmost_exists _ _ _ _ _ Hocc) as (p1 & n1 & u1 & q1 & H1 & Hl).
  rewrite (Find_leftmost _ _ _ _ _ H1 Hl) in HN. discriminate.
Qed.

End SizePatternFacts.

(** ** [validateArguments] and the order of [startRun] *)

Module MainFacts.
Import Go SizePattern SizePatternFacts Main.
Local Open Scope Z_scope.

Lemma digit_val_bounds c : is_digit c = true -> 0 <= digit_val c <= 9.
Proof.
  unfold is_digit, digit_val. rewrite andb_true_iff, !Nat.leb_le. lia.
Qed.

Lemma decimal_from_total acc ds :
  all_digits ds -> 0 <= acc ->
  exists v, decimal_from acc ds = Some v /\ acc <= v.
Proof.
  revert acc. induction ds as [|c ds IH]; simpl; intros acc Hd Hacc.
  - exists acc. split; [reflexivity | lia].
  - destruct Hd as [Hc Hd]. rewrite Hc.
    pose proof (digit_val_bounds c Hc).
    destruct (IH (10 * acc + digit_val c) Hd ltac:(lia)) as (v & Hv & Hle).
    exists v. split; [assumption | lia].
Qed.

(** The text of group 1 is a numeral of a positive number. *)
Lemma number_decimal num :
  is_number num -> exists n, decimal num = Some n /\ 1 <= n.
Proof.
  destruct num as [|c ds]; [contradiction|]. intros [Hc Hd].
  unfold decimal. simpl. rewrite (nonzero_digit_is_digit c Hc).
  assert (1 <= digit_val c <= 9).
  { revert Hc. unfold is_nonzero_digit, digit_val.
    rewrite andb_true_iff, !Nat.leb_le. lia. }
  destruct (decimal_from_total (10 * 0 + digit_val c) ds Hd ltac:(lia)) as (v & Hv & Hle).
  exists v. split; [assumption | lia].
Qed.

(** [Atoi] on such a numeral: the number, or the largest [int] when the
    number does not fit. *)
Lemma Atoi_number num n :
  is_number num -> decimal num = Some n -> fst (Atoi num) = saturate n.
Proof.
  destruct num as [|c ds]; [contradiction|]. intros [Hc _] Hn.
  assert (Atoi (String c ds) =
          match decimal (String c ds) with
          | None => (0, Some ErrSyntax)
          | Some n => if n >=? 2 ^ 63 then (MaxInt64, Some ErrRange) else (n, None)
          end) as ->.
  { destruct c as [[] [] [] [] [] [] [] []];
      try (vm_compute in Hc; discriminate Hc); reflexivity. }
  rewrite Hn. unfold saturate. now destruct (n >=? 2 ^ 63).
Qed.

Lemma EqualFold_unit u :
  is_unit u = true ->
  EqualFold (String u EmptyString) "m" = (Ascii.eqb u "m" || Ascii.eqb u "M")%bool.
Proof.
  intros H. destruct (unit_cases u H) as [->|[->|[->| ->]]]; reflexivity.
Qed.

Lemma ports_pass args :
  ports_in_range args ->
  ((Port args <? 0) || (Port args >? MaxUint16))%bool = false /\
  ((S3Port args <? 0) || (S3Port args >? MaxUint16))%bool = false.
Proof.
  intros [[H1 H2] [H3 H4]]. split; apply orb_false_iff; split;
    rewrite ?Z.gtb_ltb; apply Z.ltb_ge; lia.
Qed.

(** What [validateArguments] returns when the ports are in range and the
    size text has an occurrence of the pattern: the leftmost one decides. *)
Lemma validateArguments_accepts args pre num u post n :
  ports_in_range args ->
  occurs_at (Size args) pre num u post -> leftmost (Size args) pre ->
  decimal num = Some n ->
  validateArguments args = (set_SizeInBytes args (size_in_bytes n u), None).
Proof.
  intros Hp Hocc Hl Hn. unfold validateArguments.
  destruct (ports_pass args Hp) as [-> ->].
  rewrite (Find_leftmost _ _ _ _ _ Hocc Hl).
  destruct Hocc as (_ & Hnum & Hu).
  change (nth 1 [num ++ String u EmptyString; num; String u EmptyString] EmptyString)%string
    with num.
  change (nth 2 [num ++ String u EmptyString; num; String u EmptyString] EmptyString)%string
    with (String u EmptyString).
  pose proof (Atoi_number num n Hnum Hn) as Ha.
  destruct (Atoi num) as [val e]. simpl in Ha. subst val.
  rewrite (EqualFold_unit u Hu). unfold size_in_bytes.
  destruct (Ascii.eqb u "m" || Ascii.eqb u "M")%bool; reflexivity.
Qed.

Lemma size_in_bytes_exact n u :
  1 <= n -> n * unit_factor u < 2 ^ 64 -> size_in_bytes n u = n * unit_factor u.
Proof.
  intros H1 H2. unfold size_in_bytes, unit_factor, mul64, uint64, saturate in *.
  assert (n < 2 ^ 54).
  { destruct (Ascii.eqb u "m" || Ascii.eqb u "M")%bool; lia. }
  destruct (n >=? 2 ^ 63) eqn:E; [apply Z.geb_le in E; lia|].
  rewrite (Z.mod_small n) by lia.
  destruct (Ascii.eqb u "m" || Ascii.eqb u "M")%bool.
  - rewrite (Z.mod_small (n * 1024)) by lia. rewrite Z.mod_small by lia. lia.
  - rewrite Z.mod_small by lia. reflexivity.
Qed.

(** [validateArguments] changes the size in bytes and nothing else. *)
Lemma validateArguments_frame args :
  exists v, fst (validateArguments args) = set_SizeInBytes args v.
Proof.
  assert (args = set_SizeInBytes args (SizeInBytes args)) as E by now destruct args.
  unfold validateArguments.
  destruct ((Port args <? 0) || (Port args >? MaxUint16))%bool;
    [exists (SizeInBytes args); exact E|].
  destruct ((S3Port args <? 0) || (S3Port args >? MaxUint16))%bool;
    [exists (SizeInBytes args); exact E|].
  destruct (FindStringSubmatch (Size args)) as [groups|];
    [|exists (SizeInBytes args); exact E].
  destruct (Atoi (nth 1 groups EmptyString)) as [val e].
  destruct (EqualFold (nth 2 groups EmptyString) "m"); eexists; reflexivity.
Qed.

(** Arguments that pass: the ports are in range and the leftmost occurrence
    of the pattern in the size text gives the size in bytes. *)
Lemma validateArguments_inv args args' :
  validateArguments args = (args', None) ->
  ports_in_range args /\
  exists pre num u post n,
    occurs_at (Size args) pre num u post /\ leftmost (Size args) pre /\
    decimal num = Some n /\ 1 <= n /\
    args' = set_SizeInBytes args (size_in_bytes n u).
Proof.
  intros H. assert (Hv := H). unfold validateArguments in H.
  destruct ((Port args <? 0) || (Port args >? MaxUint16))%bool eqn:E1; [discriminate|].
  destruct ((S3Port args <? 0) || (S3Port args >? MaxUint16))%bool eqn:E2; [discriminate|].
  apply orb_false_iff in E1 as [E1 E1'], E2 as [E2 E2'].
  rewrite Z.gtb_ltb in E1', E2'.
  apply Z.ltb_ge in E1, E1', E2, E2'.
  assert (Hp : ports_in_range args) by (unfold ports_in_range; lia).
  split; [exact Hp|].
  destruct (FindStringSubmatch (Size args)) as [groups|] eqn:EF; [|discriminate].
  destruct (Find_Some _ _ EF) as (pre & num & u & post & Hocc & Hl & _).
  destruct (number_decimal num (proj1 (proj2 Hocc))) as (n & Hn & Hn1).
  exists pre, num, u, post, n. repeat split; try apply Hocc; auto.
  rewrite (validateArguments_accepts _ _ _ _ _ _ Hp Hocc Hl Hn) in Hv.
  now inversion Hv.
Qed.

(** A size text without an occurrence of the pattern is refused. *)
Lemma validateArguments_refuses args :
  ports_in_range args ->
  (forall pre num u post, ~ occurs_at (Size args) pre num u post) ->
  validateArguments args =
  (args, Some (Errorf "Bad size specifier: %v" [AStr (Size args)])).
Proof.
  intros Hp Hno. unfold validateArguments.
  destruct (ports_pass args Hp) as [-> ->].
  destruct (FindStringSubmatch (Size args)) as [groups|] eqn:EF; [|reflexivity].
  destruct (Find_Some _ _ EF) as (pre & num & u & post & Hocc & _).
  now destruct (Hno _ _ _ _ Hocc).
Qed.

(** C9 (amended): the size pattern is not anchored.  When the ports are in
    range, [validateArguments] accepts every size text in which a numeral
    (a digit from 1 to 9, then digits) followed by one of k, K, m, M occurs
    anywhere; the leftmost such occurrence is the one used, and the size in
    bytes is its number times 1024 for k or K and times 1048576 for m or M
    whenever that product is below 2^64. *)
Theorem validateArguments_unanchored args pre num u post :
  ports_in_range args ->
  occurs_at (Size args) pre num u post ->
  exists pre1 num1 u1 post1 n,
    occurs_at (Size args) pre1 num1 u1 post1 /\ leftmost (Size args) pre1 /\
    decimal num1 = Some n /\
    snd (validateArguments args) = None /\
    (n * unit_factor u1 < 2 ^ 64 ->
     SizeInBytes (fst (validateArguments args)) = n * unit_factor u1).
Proof.
  intros Hp Hocc.
  destruct (leftmost_exists _ _ _ _ _ Hocc) as (pre1 & num1 & u1 & post1 & H1 & Hl).
  destruct (number_decimal num1 (proj1 (proj2 H1))) as (n & Hn & Hn1).
  exists pre1, num1, u1, post1, n.
  rewrite (validateArguments_accepts _ _ _ _ _ _ Hp H1 Hl Hn).
  repeat split; try apply H1; auto.
  intros Hlt. simpl. now apply size_in_bytes_exact.
Qed.

Lemma validateArguments_unanchored_witness :
  exists pre1 num1 u1 post1 n,
    occurs_at "x5M" pre1 num1 u1 post1 /\ leftmost "x5M" pre1 /\
    decimal num1 = Some n /\
    snd (validateArguments (run_args true "x5M" 1000 "")) = None /\
    (n * unit_factor u1 < 2 ^ 64 ->
     SizeInBytes (fst (validateArguments (run_args true "x5M" 1000 ""))) =
     n * unit_factor u1).
Proof.
  apply (validateArguments_unanchored (run_args true "x5M" 1000 "") "x" "5" "M" "").
  - unfold ports_in_range, MaxUint16. simpl. lia.
  - repeat split; reflexivity.
Defined.

(** The two sizes that the claim names. *)
Example validateArguments_10KB :
  validateArguments (run_args true "10KB" 1000 "") =
  (set_SizeInBytes (run_args true "10KB" 1000 "") 10240, None).
Proof. reflexivity. Qed.

Example validateArguments_x5M :
  validateArguments (run_args true "x5M" 1000 "") =
  (set_SizeInBytes (run_args true "x5M" 1000 "") 5242880, None).
Proof. reflexivity. Qed.

(** C9, as stated, fails where the product does not fit 64 bits: the text
    17592186044416m is accepted, its number is 2^44, and the size in bytes
    is 0 and not 2^44 times 1048576. *)
Lemma validateArguments_product_wraps :
  let r := validateArguments (run_args true "17592186044416m" 1000 "") in
  snd r = None /\
  occurs_at "17592186044416m" "" "17592186044416" "m" "" /\
  decimal "17592186044416" = Some 17592186044416 /\
  SizeInBytes (fst r) = 0 /\
  SizeInBytes (fst r) <> 17592186044416 * 1048576.
Proof.
  repeat split; try reflexivity. vm_compute. discriminate.
Qed.

(** The fields of the order that do not depend on the kind of connection. *)
Lemma buildJob_order (Report : Type) (zr : Report) (now : Z) args :
  let o := order Report (buildJob Report zr now args) in
  Order.JobId o = 1 /\ Order.ObjectSize o = SizeInBytes args /\
  Order.Seed o = uint64 now /\ Order.GeneratorType o = "prng" /\
  Order.RangeStart o = 0 /\ Order.RangeEnd o = uint64 (Objects args) /\
  Order.Targets o = Targets args.
Proof. unfold buildJob. simpl. destruct (S3 args); repeat split. Qed.

(** C5: arguments that pass [validateArguments] can give an order whose
    object size is 0.  The size text 18014398509481984k is accepted; its
    number is 2^54, and 2^54 times 1024 is 0 in 64 bits. *)
Theorem objectSize_zero_after_validation (Report : Type) (zr : Report) (now : Z) :
  let r := validateArguments (run_args true "18014398509481984k" 1000 "") in
  snd r = None /\
  SizeInBytes (fst r) = 0 /\
  Order.ObjectSize (order Report (buildJob Report zr now (fst r))) = 0.
Proof. repeat split. Qed.

(** Where the product fits 64 bits the object size of a validated run is at
    least 1024. *)
Lemma objectSize_positive_without_wrap (Report : Type) (zr : Report) (now : Z)
  args args' :
  validateArguments args = (args', None) ->
  exists pre num u post n,
    occurs_at (Size args) pre num u post /\ leftmost (Size args) pre /\
    decimal num = Some n /\
    (n * unit_factor u < 2 ^ 64 ->
     1024 <= Order.ObjectSize (order Report (buildJob Report zr now args'))).
Proof.
  intros H. destruct (validateArguments_inv _ _ H)
    as (_ & pre & num & u & post & n & Hocc & Hl & Hn & Hn1 & ->).
  exists pre, num, u, post, n. repeat split; try apply Hocc; auto.
  intros Hlt.
  destruct (buildJob_order Report zr now (set_SizeInBytes args (size_in_bytes n u)))
    as (_ & -> & _).
  simpl. rewrite (size_in_bytes_exact n u Hn1 Hlt).
  unfold unit_factor. destruct (Ascii.eqb u "m" || Ascii.eqb u "M")%bool; lia.
Qed.

(** C3, as stated, fails at an object count of zero: the arguments pass
    [validateArguments] and the range of the order is empty. *)
Lemma range_empty_at_zero_objects :
  let r := validateArguments (run_args true "1M" 0 "") in
  let o := order unit (buildJob unit tt 0 (fst r)) in
  snd r = None /\ Order.RangeStart o = 0 /\ Order.RangeEnd o = 0 /\
  ~ (Order.RangeEnd o > Order.RangeStart o).
Proof. repeat split. vm_compute. discriminate. Qed.

(** C3 (amended): for validated arguments whose object count is not zero,
    the order of [startRun] has [RangeStart = 0] and [RangeEnd > RangeStart];
    [RangeEnd] is the object count taken as an unsigned 64-bit number. *)
Theorem range_nonempty_when_objects_nonzero (Report : Type) (zr : Report) (now : Z)
  args args' :
  is_int (Objects args) ->
  validateArguments args = (args', None) ->
  Objects args <> 0 ->
  let o := order Report (buildJob Report zr now args') in
  Order.RangeStart o = 0 /\
  Order.RangeEnd o = uint64 (Objects args) /\
  Order.RangeEnd o > Order.RangeStart o.
Proof.
  intros Hint Hv Hnz. destruct (validateArguments_frame args) as [v Hf].
  rewrite Hv in Hf. simpl in Hf. subst args'. cbv zeta.
  destruct (buildJob_order Report zr now (set_SizeInBytes args v))
    as (_ & _ & _ & _ & -> & -> & _).
  simpl. repeat split. unfold uint64, is_int, MinInt64, MaxInt64 in *.
  change (2 ^ 64) with 18446744073709551616.
  change (2 ^ 63) with 9223372036854775808 in Hint.
  assert (0 <= Objects args mod 18446744073709551616 < 18446744073709551616)
    by (apply Z.mod_pos_bound; lia).
  assert (Objects args mod 18446744073709551616 <> 0); [|lia].
  intros E. apply Z.mod_divide in E; [|lia].
  destruct E as [k Hk]. lia.
Qed.

Lemma range_nonempty_when_objects_nonzero_witness :
  let o := order unit (buildJob unit tt 0
             (set_SizeInBytes (run_args true "1M" 1000 "") 1048576)) in
  Order.RangeStart o = 0 /\
  Order.RangeEnd o = uint64 1000 /\
  Order.RangeEnd o > Order.RangeStart o.
Proof.
  apply (range_nonempty_when_objects_nonzero unit tt 0 (run_args true "1M" 1000 "")).
  - unfold is_int, MinInt64, MaxInt64. simpl. lia.
  - reflexivity.
  - simpl. lia.
Defined.

(** C4, as stated, fails: two successive runs, at different times and with
    different arguments, are given the same job id. *)
Lemma jobId_repeats :
  let o1 := order unit (buildJob unit tt 1667347200 (run_args true "1M" 1000 "")) in
  let o2 := order unit (buildJob unit tt 1667347260 (run_args false "4K" 50 "")) in
  Order.JobId o1 = Order.JobId o2 /\ ~ (Order.JobId o1 < Order.JobId o2).
Proof. split; [reflexivity | vm_compute; discriminate]. Qed.

(** C4 (amended): the job id of the order that [startRun] constructs is 1
    in every run, whatever the arguments and the time; successive runs are
    given the same job id. *)
Theorem jobId_is_one (Report : Type) (zr : Report) (now1 now2 : Z) args1 args2 :
  Order.JobId (order Report (buildJob Report zr now1 args1)) = 1 /\
  Order.JobId (order Report (buildJob Report zr now2 args2)) =
  Order.JobId (order Report (buildJob Report zr now1 args1)).
Proof.
  destruct (buildJob_order Report zr now1 args1) as (-> & _).
  destruct (buildJob_order Report zr now2 args2) as (-> & _).
  split; reflexivity.
Qed.

(** C10: the connection type and the credentials of the order.  With
    [args.S3] the type is s3 and the credentials have exactly the keys
    access_key and secret_key; otherwise the type is rados, the credentials
    have exactly the keys username and key, and the port is left at zero. *)
Theorem order_connection (Report : Type) (zr : Report) (now : Z) args :
  let o := order Report (buildJob Report zr now args) in
  if S3 args then
    Order.ConnectionType o = "s3" /\
    dom (Order.Credentials o) = ({[ "access_key"; "secret_key" ]} : gset string) /\
    Order.Credentials o !! "access_key" = Some (S3AccessKey args) /\
    Order.Credentials o !! "secret_key" = Some (S3SecretKey args) /\
    Order.Bucket o = S3Bucket args /\
    Order.Port o = uint16 (S3Port args)
  else
    Order.ConnectionType o = "rados" /\
    dom (Order.Credentials o) = ({[ "username"; "key" ]} : gset string) /\
    Order.Credentials o !! "username" = Some (CephUser args) /\
    Order.Credentials o !! "key" = Some (CephKey args) /\
    Order.Bucket o = CephPool args /\
    Order.Port o = 0.
Proof.
  unfold buildJob. simpl. destruct (S3 args); simpl.
  - split; [reflexivity|]. split.
    { rewrite !dom_insert_L, dom_empty_L. set_solver. }
    split; [|split; [apply lookup_insert_eq | split; reflexivity]].
    rewrite lookup_insert_ne by discriminate. apply lookup_insert_eq.
  - split; [reflexivity|]. split.
    { rewrite !dom_insert_L, dom_empty_L. set_solver. }
    split; [|split; [apply lookup_insert_eq | split; reflexivity]].
    rewrite lookup_insert_ne by discriminate. apply lookup_insert_eq.
Qed.

Section StartRun.

Variable Report : Type.
Variable zero_report : Report.
Variable now : Z.
Variable setArguments : Job Report -> Arguments -> Job Report.
Variable Manager_Run : Job Report -> Job Report * option error.
Variable MarshalIndent : Report -> string -> string -> list byte * option error.
Variable WriteFile_result : string -> list byte -> Z -> option error.

Local Abbreviation run args :=
  (startRun Report zero_report now setArguments Manager_Run MarshalIndent
     WriteFile_result args).

(** The run of [startRun] up to the encoding of the report, whatever
    [Manager.Run] returned: the job goes to the manager, and an error of the
    manager is printed and nothing more. *)
Lemma startRun_unfold args tr :
  let j := setArguments (buildJob Report zero_report now args) args in
  let j' := fst (Manager_Run j) in
  let tr1 :=
    (tr ++ [EvRun j] ++
     match snd (Manager_Run j) with
     | Some e => [EvPrintf ("Error running job: %v" ++ LF)%string [AErr e]]
     | None => []
     end)%list in
  run args tr =
  match MarshalIndent (report Report j') "" "  " with
  | (jsonReport, Some me) =>
      ((tr1 ++ [EvPrintf "Unable to encode results as json" [ASlice []];
                EvPrintf (": %v" ++ LF)%string [AErr me];
                EvExit (-1)])%list, Exited (-1))
  | (jsonReport, None) =>
      if String.eqb (JsonOutput args) "" then
        ((tr1 ++ [EvPrintf ("Done" ++ LF)%string []])%list, Returned tt)
      else
        match WriteFile_result (JsonOutput args) jsonReport 420 with
        | None =>
            ((tr1 ++ [EvWriteFile (JsonOutput args) jsonReport 420;
                      EvPrintf ("Done" ++ LF)%string []])%list, Returned tt)
        | Some we =>
            ((tr1 ++ [EvWriteFile (JsonOutput args) jsonReport 420;
                      EvPrintf "Unable to write json report to file: %v"
                        [ASlice [AStr (JsonOutput args)]];
                      EvPrintf (": %v" ++ LF)%string [AErr we];
                      EvExit (-1)])%list, Exited (-1))
        end
  end.
Proof.
  intros j j' tr1. subst tr1 j'. unfold startRun.
  fold j. unfold bind at 1. unfold Manager_dot_Run, bind, emit, ret, Printf.
  destruct (Manager_Run j) as [j1 [e|]]; simpl;
    destruct (MarshalIndent (report Report j1) "" "  ") as [json [me|]];
    unfold dieOnError, bind, Printf, emit, Exit, ret, WriteFile; simpl;
    rewrite <- ?app_assoc; simpl; try reflexivity;
    destruct (String.eqb (JsonOutput args) ""); simpl;
    rewrite <- ?app_assoc; simpl; try reflexivity;
    destruct (WriteFile_result (JsonOutput args) json 420); simpl;
    rewrite <- ?app_assoc; reflexivity.
Qed.

(** C6 (amended): when [Manager.Run] returns an error, [startRun] prints
    the error and goes on as after a run without error.  It encodes the
    report that the job holds after the run.  When the encoding succeeds
    and a JSON output file is configured it writes the report to that file;
    when the encoding fails it stops with exit status -1 and writes
    nothing. *)
Theorem startRun_after_failed_run args tr j' e :
  let j := setArguments (buildJob Report zero_report now args) args in
  Manager_Run j = (j', Some e) ->
  let failure := EvPrintf ("Error running job: %v" ++ LF)%string [AErr e] in
  let done := EvPrintf ("Done" ++ LF)%string [] in
  startRun Report zero_report now setArguments Manager_Run MarshalIndent
    WriteFile_result args tr =
  match MarshalIndent (report Report j') "" "  " with
  | (_, Some me) =>
      ((tr ++ [EvRun j; failure;
               EvPrintf "Unable to encode results as json" [ASlice []];
               EvPrintf (": %v" ++ LF)%string [AErr me];
               EvExit (-1)])%list, Exited (-1))
  | (json, None) =>
      if String.eqb (JsonOutput args) "" then
        ((tr ++ [EvRun j; failure; done])%list, Returned tt)
      else
        let written := EvWriteFile (JsonOutput args) json 420 in
        match WriteFile_result (JsonOutput args) json 420 with
        | None => ((tr ++ [EvRun j; failure; written; done])%list, Returned tt)
        | Some we =>
            ((tr ++ [EvRun j; failure; written;
                     EvPrintf "Unable to write json report to file: %v"
                       [ASlice [AStr (JsonOutput args)]];
                     EvPrintf (": %v" ++ LF)%string [AErr we];
                     EvExit (-1)])%list, Exited (-1))
        end
  end.
Proof.
  intros j HR failure done.
  rewrite (startRun_unfold args tr). fold j. rewrite HR. simpl fst. simpl snd.
  subst failure done.
  destruct (MarshalIndent (report Report j') "" "  ") as [json [me|]].
  - now rewrite <- app_assoc.
  - destruct (String.eqb (JsonOutput args) ""); [now rewrite <- app_assoc|].
    cbv zeta.
    destruct (WriteFile_result (JsonOutput args) json 420); now rewrite <- app_assoc.
Qed.

(** A run command reaches [startRun] with the struct as [validateArguments]
    left it, and with no other struct. *)
Lemma main_runs_validated StartForeman_result prettyPrint args args' tr :
  validateArguments args = (args', None) ->
  Verbose args = false -> Server args = false -> Main.Run args = true ->
  main Report zero_report now setArguments Manager_Run MarshalIndent
    WriteFile_result StartForeman_result prettyPrint args tr =
  run args' tr.
Proof.
  intros Hv HV HS HR. unfold main. rewrite Hv.
  destruct (validateArguments_frame args) as [v Hf]. rewrite Hv in Hf.
  simpl in Hf. subst args'. simpl. rewrite HV, HS, HR.
  unfold bind, ret. simpl.
  now destruct (startRun _ _ _ _ _ _ _ _ tr) as [tr' [[]|c]].
Qed.

Lemma main_refuses StartForeman_result prettyPrint args args' e tr :
  validateArguments args = (args', Some e) ->
  main Report zero_report now setArguments Manager_Run MarshalIndent
    WriteFile_result StartForeman_result prettyPrint args tr =
  ((tr ++ [EvPrintf "Failure validating arguments" [ASlice []];
           EvPrintf (": %v" ++ LF)%string [AErr e];
           EvExit (-1)])%list, Exited (-1)).
Proof.
  intros Hv. unfold main. rewrite Hv.
  unfold dieOnError, bind, Printf, emit, Exit, ret. simpl.
  now rewrite <- !app_assoc.
Qed.

End StartRun.

(** A failed run with a report that can be encoded: the report is
    written. *)
Lemma startRun_after_failed_run_witness :
  let args := run_args true "1M" 1000 "report.json" in
  let e := Errno "ECONNREFUSED" in
  let json := ["{"%byte; "}"%byte] in
  let j := buildJob unit tt 0 args in
  startRun unit tt 0 (fun j _ => j) (fun j => (j, Some e))
    (fun _ _ _ => (json, None)) (fun _ _ _ => None) args [] =
  ([EvRun j; EvPrintf ("Error running job: %v" ++ LF)%string [AErr e];
    EvWriteFile "report.json" json 420; EvPrintf ("Done" ++ LF)%string []],
   Returned tt).
Proof.
  intros args e json j.
  exact (startRun_after_failed_run unit tt 0 (fun j _ => j)
           (fun j => (j, Some e)) (fun _ _ _ => (json, None)) (fun _ _ _ => None)
           args [] j e eq_refl).
Defined.

(** C6, as the claim states it, fails: a failed run after which the report
    cannot be encoded.  [startRun] prints both errors and exits with status
    -1; the report is not written, though a JSON output file is
    configured. *)
Lemma startRun_failed_run_without_report :
  let args := run_args true "1M" 1000 "report.json" in
  let e := Errno "ECONNREFUSED" in
  let me := Errorf "json: unsupported value: %v" [AStr "NaN"] in
  let j := buildJob unit tt 0 args in
  let out :=
    startRun unit tt 0 (fun j _ => j) (fun j => (j, Some e))
      (fun _ _ _ => ([], Some me)) (fun _ _ _ => None) args [] in
  JsonOutput args = "report.json" /\
  out =
  ([EvRun j; EvPrintf ("Error running job: %v" ++ LF)%string [AErr e];
    EvPrintf "Unable to encode results as json" [ASlice []];
    EvPrintf (": %v" ++ LF)%string [AErr me];
    EvExit (-1)],
   Exited (-1)) /\
  existsb (fun ev => match ev with EvWriteFile _ _ _ => true | _ => false end)
    (fst out) = false.
Proof. intros args e me j out. repeat split. Qed.

End MainFacts.

(** ** The file-backed connection *)

Module FileConnFacts.
Import Go FileConn.
Local Open Scope list_scope.

(** *** Directories *)

Lemma Stat_nonempty (fs : gmap (list string) node) p :
  p <> [] -> Stat fs p = fs !! p.
Proof. now destruct p. Qed.

Lemma parent_snoc (p : path) x : parent (p ++ [x]) = p.
Proof. apply removelast_last. Qed.

Lemma with_fs_same w : with_fs w (fs w) = w.
Proof. now destruct w. Qed.

Lemma snoc_nonempty (p : list string) x : p ++ [x] <> [].
Proof. now destruct p. Qed.

(** Joining empty elements gives the empty string, which is no path; every
    other join is a path in the tree. *)
Lemma Join_empty_elements elems :
  forallb (fun e => String.eqb e "") elems = true -> Join elems = [].
Proof.
  intros H. unfold Join.
  replace (flat_map components elems) with (@nil string); [reflexivity|].
  induction elems as [|e elems IH]; [reflexivity|].
  simpl in H. apply andb_true_iff in H as [He H].
  apply String.eqb_eq in He. subst e. simpl. now apply IH.
Qed.

Lemma filepath_Join_at elems :
  Join elems <> [] -> filepath_Join elems = At (Join elems).
Proof.
  intros Hne. unfold filepath_Join.
  destruct (forallb _ elems) eqn:E; [|reflexivity].
  now apply Join_empty_elements in E.
Qed.

Lemma filepath_Join_cases elems :
  filepath_Join elems = Nowhere /\ Join elems = [] \/
  filepath_Join elems = At (Join elems).
Proof.
  unfold filepath_Join. destruct (forallb _ elems) eqn:E; [left|now right].
  split; [reflexivity | now apply Join_empty_elements].
Qed.

(** [Mkdir] changes nothing when it fails, and when it succeeds it adds the
    one directory, which was missing in a directory. *)
Lemma Mkdir_error w p perm w' e :
  Mkdir w p perm = (w', Some e) -> w' = w.
Proof.
  unfold Mkdir. destruct (PATH_MAX <=? path_bytes p)%nat; [now inversion 1|].
  destruct (Stat (fs w) (parent p)) as [[|c]|]; try (now inversion 1).
  destruct (negb (allowed w (parent p) S_IXUSR)); [now inversion 1|].
  destruct (NAME_MAX <? String.length (List.last p ""))%nat; [now inversion 1|].
  destruct (Stat (fs w) p); [now inversion 1|].
  destruct (negb (allowed w (parent p) S_IWUSR)); now inversion 1.
Qed.

Lemma Mkdir_made w p perm w' :
  Mkdir w p perm = (w', None) ->
  w' = made w p (Z.ldiff perm (umask w)) /\
  Stat (fs w) p = None /\ Stat (fs w) (parent p) = Some Dir.
Proof.
  unfold Mkdir. destruct (PATH_MAX <=? path_bytes p)%nat; [now inversion 1|].
  destruct (Stat (fs w) (parent p)) as [[|c]|]; try (now inversion 1).
  destruct (negb (allowed w (parent p) S_IXUSR)); [now inversion 1|].
  destruct (NAME_MAX <? String.length (List.last p ""))%nat; [now inversion 1|].
  destruct (Stat (fs w) p); [now inversion 1|].
  destruct (negb (allowed w (parent p) S_IWUSR)); [now inversion 1|].
  intros H. injection H as <-. auto.
Qed.

Lemma allowed_privileged w d bit : privileged w = true -> allowed w d bit = true.
Proof. unfold allowed. now intros ->. Qed.

(** When every check of [Mkdir] passes the directory is made. *)
Lemma Mkdir_fresh w p perm :
  Stat (fs w) p = None -> Stat (fs w) (parent p) = Some Dir ->
  allowed w (parent p) S_IXUSR = true -> allowed w (parent p) S_IWUSR = true ->
  (String.length (List.last p "") <= NAME_MAX)%nat ->
  (path_bytes p < PATH_MAX)%nat ->
  Mkdir w p perm = (made w p (Z.ldiff perm (umask w)), None).
Proof.
  intros Hp Hpar Hx Hw Hlen Hbytes. unfold Mkdir.
  apply Nat.leb_gt in Hbytes. rewrite Hbytes, Hp, Hpar, Hx, Hw.
  apply Nat.ltb_ge in Hlen. now rewrite Hlen.
Qed.

Lemma path_bytes_snoc (p : list string) x :
  path_bytes (p ++ [x]) = (path_bytes p + S (String.length x))%nat.
Proof.
  induction p as [|c p IH]; [simpl; lia|].
  change (path_bytes ((c :: p) ++ [x]))
    with (S (String.length c) + path_bytes (p ++ [x]))%nat.
  rewrite IH. simpl. lia.
Qed.

(** One step of [MkdirAll]: making the parent of a path just below the
    root is no work. *)
Lemma MkdirAll_rev_cons x rparent perm w :
  MkdirAll_rev (x :: rparent) perm w =
  match Stat (fs w) (rev rparent ++ [x]) with
  | Some Dir => (w, None)
  | Some (File _) => (w, Some (Errno "ENOTDIR"))
  | None =>
      let '(w1, err) := MkdirAll_rev rparent perm w in
      match err with
      | Some e => (w1, Some e)
      | None =>
          let '(w2, err) := Mkdir w1 (rev rparent ++ [x]) perm in
          match err with
          | Some e =>
              match Stat (fs w2) (rev rparent ++ [x]) with
              | Some Dir => (w2, None)
              | _ => (w2, Some e)
              end
          | None => (w2, None)
          end
      end
  end.
Proof.
  simpl. destruct (Stat (fs w) (rev rparent ++ [x])) as [[|c]|]; try reflexivity.
  now destruct rparent.
Qed.

(** A directory that is there needs no work. *)
Lemma MkdirAll_rev_dir rp perm w :
  Stat (fs w) (rev rp) = Some Dir -> MkdirAll_rev rp perm w = (w, None).
Proof. intros H. destruct rp; simpl in *; [reflexivity | now rewrite H]. Qed.

(** What [MkdirAll] does: it touches no path that is not on the way to its
    argument, and its argument is a directory afterwards exactly when it
    returns nil. *)
Lemma MkdirAll_rev_spec rp perm w w' r :
  MkdirAll_rev rp perm w = (w', r) ->
  (forall q, ~ q `prefix_of` rev rp -> fs w' !! q = fs w !! q) /\
  match r with
  | None => Stat (fs w') (rev rp) = Some Dir
  | Some _ => Stat (fs w') (rev rp) <> Some Dir
  end.
Proof.
  revert w w' r. induction rp as [|x rparent IH]; intros w w' r H.
  - simpl in H. injection H as <- <-. split; reflexivity.
  - rewrite MkdirAll_rev_cons in H.
    change (rev (x :: rparent)) with (rev rparent ++ [x]).
    pose proof (snoc_nonempty (rev rparent) x) as Hne.
    destruct (Stat (fs w) (rev rparent ++ [x])) as [[|c]|] eqn:HS.
    + injection H as <- <-. split; [reflexivity | exact HS].
    + injection H as <- <-. split; [reflexivity | now rewrite HS].
    + destruct (MkdirAll_rev rparent perm w) as [w1 err] eqn:E.
      destruct (IH _ _ _ E) as [Hframe Hres].
      assert (Hp : Stat (fs w1) (rev rparent ++ [x]) = None).
      { rewrite (Stat_nonempty _ _ Hne), Hframe;
          [now rewrite <- (Stat_nonempty _ _ Hne)|].
        intros Hpre. apply prefix_length in Hpre.
        rewrite length_app in Hpre. simpl in Hpre. lia. }
      assert (Hout : forall q, ~ q `prefix_of` rev rparent ++ [x] ->
                               fs w1 !! q = fs w !! q).
      { intros q Hq. apply Hframe. intros Hpre. apply Hq. now apply prefix_app_r. }
      destruct err as [e|].
      * injection H as <- <-. split; [exact Hout | now rewrite Hp].
      * destruct (Mkdir w1 (rev rparent ++ [x]) perm) as [w2 [e|]] eqn:EM.
        -- apply Mkdir_error in EM. subst w2. rewrite Hp in H.
           injection H as <- <-. split; [exact Hout | now rewrite Hp].
        -- injection H as <- <-. apply Mkdir_made in EM as (-> & _ & _). simpl. split.
           ++ intros q Hq. rewrite lookup_insert_ne; [now apply Hout|].
              intros <-. now apply Hq.
           ++ rewrite (Stat_nonempty _ _ Hne). apply lookup_insert_eq.
Qed.

(** [MkdirAll] run again on the state it left returns what it returned and
    changes nothing: what it made is there, and what stopped it stops it
    again. *)
Lemma MkdirAll_rev_idempotent rp perm w w' r :
  MkdirAll_rev rp perm w = (w', r) -> MkdirAll_rev rp perm w' = (w', r).
Proof.
  revert w w' r. induction rp as [|x rparent IH]; intros w w' r H.
  - simpl in *. now injection H as <- <-.
  - rewrite MkdirAll_rev_cons in H |- *.
    pose proof (snoc_nonempty (rev rparent) x) as Hne.
    destruct (Stat (fs w) (rev rparent ++ [x])) as [[|c]|] eqn:HS.
    + injection H as <- <-. now rewrite HS.
    + injection H as <- <-. now rewrite HS.
    + destruct (MkdirAll_rev rparent perm w) as [w1 err] eqn:E.
      destruct (MkdirAll_rev_spec _ _ _ _ _ E) as [Hframe _].
      pose proof (IH _ _ _ E) as Hagain.
      assert (Hp : Stat (fs w1) (rev rparent ++ [x]) = None).
      { rewrite (Stat_nonempty _ _ Hne), Hframe;
          [now rewrite <- (Stat_nonempty _ _ Hne)|].
        intros Hpre. apply prefix_length in Hpre.
        rewrite length_app in Hpre. simpl in Hpre. lia. }
      destruct err as [e|].
      * injection H as <- <-. now rewrite Hp, Hagain.
      * destruct (Mkdir w1 (rev rparent ++ [x]) perm) as [w2 [e|]] eqn:EM.
        -- pose proof (Mkdir_error _ _ _ _ _ EM). subst w2. rewrite Hp in H.
           injection H as <- <-. now rewrite Hp, Hagain, EM, Hp.
        -- injection H as <- <-. apply Mkdir_made in EM as (-> & _ & _).
           replace (Stat (fs (made w1 (rev rparent ++ [x]) (Z.ldiff perm (umask w1))))
                      (rev rparent ++ [x])) with (Some Dir); [reflexivity|].
           simpl. rewrite (Stat_nonempty _ _ Hne). symmetry. apply lookup_insert_eq.
Qed.

(** C7: [CreateDirectory] is idempotent.  When the directory exists it
    returns nil and changes nothing, and a second call after a first one
    returns what the first returned and leaves the state of the first,
    whether the first call made the directory, found it, or failed on the
    way (with the directories it had made by then left in the tree). *)
Theorem CreateDirectory_idempotent conn w :
  (forall p, filepath_Join [root conn; dir conn] = At p ->
             Stat (fs w) p = Some Dir -> CreateDirectory conn w = (w, None)) /\
  (forall w1 r1,
     CreateDirectory conn w = (w1, r1) -> CreateDirectory conn w1 = (w1, r1)).
Proof.
  unfold CreateDirectory, MkdirAll. split.
  - intros p -> H. apply MkdirAll_rev_dir. now rewrite rev_involutive.
  - intros w1 r1. destruct (filepath_Join [root conn; dir conn]) as [|p].
    + intros H. now injection H as <- <-.
    + apply MkdirAll_rev_idempotent.
Qed.

(** Three runs: the directory is there; a process that is not privileged
    starts from an empty tree, makes the first directory and is refused in
    it; the root and the directory of the connection are both empty. *)
Lemma CreateDirectory_idempotent_witness :
  CreateDirectory bench_conn bench_world = (bench_world, None) /\
  CreateDirectory bench_conn (fst (CreateDirectory bench_conn bench_world)) =
  CreateDirectory bench_conn bench_world /\
  (let w1 := fst (CreateDirectory bench_conn user_world) in
   CreateDirectory bench_conn user_world = (w1, Some (Errno "EACCES")) /\
   fs w1 !! ["mnt"] = Some Dir /\
   CreateDirectory bench_conn w1 = (w1, Some (Errno "EACCES"))) /\
  CreateDirectory {| root := ""; dir := "" |} bench_world =
    (bench_world, Some (Errno "ENOENT")) /\
  CreateDirectory {| root := ""; dir := "" |}
    (fst (CreateDirectory {| root := ""; dir := "" |} bench_world)) =
  CreateDirectory {| root := ""; dir := "" |} bench_world.
Proof.
  destruct (CreateDirectory_idempotent bench_conn bench_world) as [H1 H2].
  destruct (CreateDirectory_idempotent bench_conn user_world) as [_ H3].
  destruct (CreateDirectory_idempotent {| root := ""; dir := "" |} bench_world)
    as [_ H4].
  split; [|split; [|split; [split; [|split]|split]]].
  - apply (H1 ["mnt"; "ceph"; "bench"]); reflexivity.
  - destruct (CreateDirectory bench_conn bench_world) as [w1 r1] eqn:E.
    simpl. apply H2. reflexivity.
  - reflexivity.
  - reflexivity.
  - apply H3. reflexivity.
  - reflexivity.
  - destruct (CreateDirectory {| root := ""; dir := "" |} bench_world)
      as [w1 r1] eqn:E.
    simpl. apply H4. reflexivity.
Defined.

(** *** Opening and measuring a file *)

Section Reading.

Variable dev : nat -> reply.

Lemma Open_rdonly name w :
  Open dev name O_RDONLY 420 w =
  match fault (dev (clock w)) with
  | Some e => (ticked w, inr e)
  | None =>
      match Stat (fs w) name with
      | Some Dir => (ticked w, inr (Errno "EISDIR"))
      | Some (File c) => (opened (ticked w), inl {| fd_name := name; fd_pos := 0 |})
      | None => (ticked w, inr (Errno "ENOENT"))
      end
  end.
Proof.
  unfold Open, ask, ticked. simpl.
  destruct (fault (dev (clock w))); [reflexivity|].
  destruct (Stat (fs w) name) as [[|c]|]; reflexivity.
Qed.

Lemma Size_of_file fd w c :
  fs w !! fd_name fd = Some (File c) ->
  Size dev fd w =
  (ticked w,
   match fault (dev (clock w)) with
   | Some e => (0%Z, Some e)
   | None => (Z.of_nat (length c), None)
   end).
Proof.
  intros H. unfold Size, ask, ticked. simpl.
  destruct (fault (dev (clock w))); [reflexivity|]. now rewrite H.
Qed.

Lemma stored_lookup conn key w c :
  stored conn key w = Some c <->
  Stat (fs w) (Join [root conn; dir conn; key]) = Some (File c).
Proof.
  unfold stored. destruct (Stat (fs w) _) as [[|c']|]; split; intros H;
    try discriminate; now inversion H.
Qed.

Lemma Stat_file_lookup (fs : gmap (list string) node) p c :
  Stat fs p = Some (File c) -> fs !! p = Some (File c).
Proof. destruct p; [discriminate | trivial]. Qed.

(** [GetObject] ends with an error, before any [Read], when the file cannot
    be opened or its size is not the capacity of the buffer: the buffer and
    the tree are as they were, the descriptor is closed, and the device was
    called at most twice (to open and to measure). *)
Lemma GetObject_rejects fuel conn key id buffer w :
  fault (dev (clock w)) <> None \/
  length <$> stored conn key w <> Some (cap buffer) ->
  exists w' e,
    GetObject dev fuel conn key id buffer w = Some (w', buffer, Some e) /\
    fs w' = fs w /\ descriptors w' = descriptors w /\
    (clock w' <= clock w + 2)%nat.
Proof.
  intros H. unfold GetObject. rewrite Open_rdonly.
  destruct (fault (dev (clock w))) as [e|] eqn:Hf.
  { exists (ticked w), e. simpl. repeat split; lia. }
  destruct H as [H|H]; [congruence|].
  destruct (Stat (fs w) (Join [root conn; dir conn; key])) as [[|c]|] eqn:HS.
  - eexists _, _. split; [reflexivity|]. simpl. repeat split; lia.
  - rewrite (Size_of_file _ (opened (ticked w)) c)
      by (simpl; now apply Stat_file_lookup).
    simpl clock.
    destruct (fault (dev (S (clock w)))) as [e|].
    { eexists _, _. split; [reflexivity|]. simpl. repeat split; lia. }
    assert (Hc : stored conn key w = Some c) by now apply stored_lookup.
    rewrite Hc in H. simpl in H.
    destruct (Z.of_nat (cap buffer) =? Z.of_nat (length c))%Z eqn:E.
    + apply Z.eqb_eq in E. apply Nat2Z.inj in E. congruence.
    + simpl. eexists _, _. split; [reflexivity|]. simpl. repeat split; lia.
  - eexists _, _. split; [reflexivity|]. simpl. repeat split; lia.
Qed.

(** The loop of [GetObject] when it ends with nil: the buffer holds the
    file from [start] on, and its length reaches to the end of the file. *)
Lemma GetObject_loop_nil fuel : forall fd buffer start remaining w w' buffer' c,
  fs w !! fd_name fd = Some (File c) ->
  fd_pos fd = start ->
  remaining = (Z.of_nat (length c) - Z.of_nat start)%Z ->
  (start <= length c)%nat ->
  length (data buffer) = length c ->
  (start <= len buffer)%nat ->
  GetObject_loop dev fuel fd buffer start remaining w = Some (w', buffer', None) ->
  fs w' = fs w /\ descriptors w' = descriptors w /\
  len buffer' = len buffer /\ (length c <= len buffer)%nat /\
  data buffer' = take start (data buffer) ++ drop start c.
Proof.
  induction fuel as [|fuel IH];
    intros fd buffer start remaining w w' buffer' c Hfile Hpos Hrem Hle Hlen Hlb H.
  - simpl in H. destruct (remaining >? 0)%Z eqn:E; [discriminate|].
    injection H as Hw Hb. subst w' buffer'.
    rewrite Z.gtb_ltb in E. apply Z.ltb_ge in E.
    assert (start = length c) as Hs by lia.
    repeat split; try lia.
    rewrite Hs at 2. rewrite drop_all, app_nil_r.
    rewrite take_ge; [reflexivity | lia].
  - simpl in H. destruct (remaining >? 0)%Z eqn:E.
    + unfold Read, ask in H. simpl in H. rewrite Hfile in H.
      set (n := Nat.min (granted (dev (clock w)))
                  (Nat.min (len buffer - start) (length c - fd_pos fd))) in *.
      destruct (fault (dev (clock w))) as [e|]; [discriminate|].
      assert (Hn : (n <= len buffer - start /\ n <= length c - start)%nat)
        by (subst n; rewrite Hpos; lia).
      eapply IH in H; simpl; eauto; try lia.
      * destruct H as (Hfs & Hd & Hl & Hcl & Hdata). simpl in *.
        repeat split; auto.
        rewrite Hdata. rewrite Hpos.
        rewrite take_app_add' by (rewrite length_take; lia).
        rewrite take_app_length' by (rewrite length_take, length_drop; lia).
        rewrite <- app_assoc. f_equal.
        rewrite <- (take_drop n (drop start c)) at 2. f_equal.
        now rewrite drop_drop.
      * rewrite !length_app, !length_take, !length_drop. lia.
    + injection H as Hw Hb. subst w' buffer'.
      rewrite Z.gtb_ltb in E. apply Z.ltb_ge in E.
      assert (start = length c) as Hs by lia.
      repeat split; try lia.
      rewrite Hs at 2. rewrite drop_all, app_nil_r.
      rewrite take_ge; [reflexivity | lia].
Qed.

(** A device that reports no fault and delivers at least one byte per call
    lets the loop end with nil within as many calls as bytes remain. *)
Lemma GetObject_loop_returns fuel : forall fd buffer start remaining w c,
  (forall t, fault (dev t) = None /\ (1 <= granted (dev t))%nat) ->
  fs w !! fd_name fd = Some (File c) ->
  fd_pos fd = start ->
  remaining = (Z.of_nat (length c) - Z.of_nat start)%Z ->
  (start <= length c)%nat ->
  (length c <= len buffer)%nat ->
  (length c - start <= fuel)%nat ->
  exists w' buffer',
    GetObject_loop dev fuel fd buffer start remaining w = Some (w', buffer', None).
Proof.
  induction fuel as [|fuel IH];
    intros fd buffer start remaining w c Hdev Hfile Hpos Hrem Hle Hlb Hfuel.
  - simpl. destruct (remaining >? 0)%Z eqn:E; [|eauto].
    rewrite Z.gtb_ltb in E. apply Z.ltb_lt in E. lia.
  - simpl. destruct (remaining >? 0)%Z eqn:E; [|eauto].
    rewrite Z.gtb_ltb in E. apply Z.ltb_lt in E.
    unfold Read, ask. simpl. rewrite Hfile.
    destruct (Hdev (clock w)) as [-> Hg].
    set (n := Nat.min (granted (dev (clock w)))
                (Nat.min (len buffer - start) (length c - fd_pos fd))).
    assert (1 <= n /\ n <= length c - start)%nat as [Hn1 Hn2]
      by (subst n; rewrite Hpos; lia).
    apply (IH _ _ _ _ _ c); simpl; auto; lia.
Qed.

(** A nil result of [GetObject]: the stored object has the size of the
    capacity of the buffer, and the buffer, all of its capacity, holds the
    stored content. *)
Lemma GetObject_nil_inv fuel conn key id buffer w w' buffer' :
  valid buffer ->
  GetObject dev fuel conn key id buffer w = Some (w', buffer', None) ->
  length <$> stored conn key w = Some (cap buffer) /\
  stored conn key w = Some (data buffer') /\
  len buffer' = cap buffer' /\ cap buffer' = cap buffer /\
  fs w' = fs w.
Proof.
  intros Hvalid H. unfold GetObject in H. rewrite Open_rdonly in H.
  destruct (fault (dev (clock w))); [discriminate|].
  destruct (Stat (fs w) (Join [root conn; dir conn; key])) as [[|c]|] eqn:HS;
    try discriminate.
  assert (Hc : stored conn key w = Some c) by now apply stored_lookup.
  apply Stat_file_lookup in HS.
  rewrite (Size_of_file _ (opened (ticked w)) c) in H by exact HS.
  simpl clock in H.
  destruct (fault (dev (S (clock w)))); [discriminate|].
  destruct (Z.of_nat (cap buffer) =? Z.of_nat (length c))%Z eqn:E;
    [|discriminate].
  apply Z.eqb_eq in E. apply Nat2Z.inj in E. simpl in H.
  destruct (GetObject_loop dev fuel _ buffer 0 _ _) as [[[w2 b2] e2]|] eqn:EL;
    [|discriminate].
  injection H as Hw Hb He. subst w' buffer' e2.
  eapply (GetObject_loop_nil fuel _ buffer 0 _ _ _ _ c) in EL; simpl; auto; try lia.
  destruct EL as (Hfs & _ & Hl & Hcl & Hdata). simpl in Hdata, Hfs.
  rewrite drop_0 in Hdata. unfold valid, cap in *. rewrite Hdata, Hc. simpl.
  repeat split; auto; try congruence; lia.
Qed.

(** C2: [GetObject] checks the size before it reads.  Whenever the size of
    the stored object is not the capacity of the buffer (or there is no
    stored object) it returns an error, never nil; and when it returns nil
    the stored object has the size of the capacity and the buffer holds the
    stored content, all of its capacity. *)
Theorem GetObject_checks_size fuel conn key id buffer w :
  valid buffer ->
  (length <$> stored conn key w <> Some (cap buffer) ->
   exists w' e, GetObject dev fuel conn key id buffer w = Some (w', buffer, Some e)) /\
  (forall w' buffer',
     GetObject dev fuel conn key id buffer w = Some (w', buffer', None) ->
     length <$> stored conn key w = Some (cap buffer) /\
     stored conn key w = Some (data buffer') /\
     len buffer' = cap buffer' /\ cap buffer' = cap buffer /\
     fs w' = fs w).
Proof.
  intros Hvalid. split.
  - intros H. destruct (GetObject_rejects fuel conn key id buffer w (or_intror H))
      as (w' & e & HG & _). eauto.
  - intros w' buffer'. now apply GetObject_nil_inv.
Qed.

(** C8: when [GetObject] fails because the file cannot be opened or because
    the size of the stored object is not the capacity of the buffer, the
    buffer is handed back as it was given: the check comes before any read,
    the device having been called to open and to measure only. *)
Theorem GetObject_error_leaves_buffer fuel conn key id buffer w :
  (exists e0 w0, Open dev (Join [root conn; dir conn; key]) O_RDONLY 420 w = (w0, inr e0)) \/
  length <$> stored conn key w <> Some (cap buffer) ->
  exists w' e,
    GetObject dev fuel conn key id buffer w = Some (w', buffer, Some e) /\
    fs w' = fs w /\ descriptors w' = descriptors w /\
    (clock w' <= clock w + 2)%nat.
Proof.
  intros [(e0 & w0 & HO)|H].
  - unfold GetObject. rewrite HO. exists w0, e0. split; [reflexivity|].
    rewrite Open_rdonly in HO.
    destruct (fault (dev (clock w))).
    { injection HO as <- _. simpl. repeat split; lia. }
    destruct (Stat (fs w) (Join [root conn; dir conn; key])) as [[|c]|];
      try discriminate; injection HO as <- _; simpl; repeat split; lia.
  - now apply GetObject_rejects; right.
Qed.

End Reading.

Lemma GetObject_checks_size_witness :
  let buffer := {| data := ["000"%byte; "000"%byte]; len := 2 |} in
  (length <$> stored bench_conn "obj" object_world <> Some (cap buffer) ->
   exists w' e,
     GetObject one_byte_device 4 bench_conn "obj" 7 buffer object_world =
     Some (w', buffer, Some e)) /\
  (forall w' buffer',
     GetObject one_byte_device 4 bench_conn "obj" 7 buffer object_world =
     Some (w', buffer', None) ->
     length <$> stored bench_conn "obj" object_world = Some (cap buffer) /\
     stored bench_conn "obj" object_world = Some (data buffer') /\
     len buffer' = cap buffer' /\ cap buffer' = cap buffer /\
     fs w' = fs object_world).
Proof.
  intros buffer.
  apply (GetObject_checks_size one_byte_device 4 bench_conn "obj" 7 buffer object_world).
  unfold valid, cap. simpl. lia.
Defined.

(** The run of that witness: two reads of one byte each fill the buffer. *)
Example GetObject_two_reads :
  exists w',
    GetObject one_byte_device 4 bench_conn "obj" 7
      {| data := ["000"%byte; "000"%byte]; len := 2 |} object_world =
    Some (w', {| data := ["001"%byte; "002"%byte]; len := 2 |}, None) /\
    clock w' = 4%nat.
Proof. eexists. split; vm_compute; reflexivity. Qed.

(** A stored object of two bytes and a buffer of capacity three. *)
Lemma GetObject_error_leaves_buffer_witness :
  let buffer := {| data := ["000"%byte; "000"%byte; "000"%byte]; len := 3 |} in
  exists w' e,
    GetObject one_byte_device 4 bench_conn "obj" 7 buffer object_world =
    Some (w', buffer, Some e) /\
    fs w' = fs object_world /\ descriptors w' = descriptors object_world /\
    (clock w' <= clock object_world + 2)%nat.
Proof.
  intros buffer.
  apply (GetObject_error_leaves_buffer one_byte_device 4 bench_conn "obj" 7 buffer
           object_world).
  right. vm_compute. discriminate.
Defined.

(** With a device that reports no fault and delivers at least one byte per
    call, [GetObject] on a stored object of the size of the buffer returns
    nil with the stored content in the buffer. *)
Lemma GetObject_returns_nil dev fuel conn key id buffer w c :
  (forall t, fault (dev t) = None /\ (1 <= granted (dev t))%nat) ->
  stored conn key w = Some c ->
  cap buffer = length c -> len buffer = length c ->
  (length c <= fuel)%nat ->
  exists w',
    GetObject dev fuel conn key id buffer w =
    Some (w', {| data := c; len := len buffer |}, None).
Proof.
  intros Hdev Hc Hcap Hlen Hfuel.
  assert (Hvalid : valid buffer) by (unfold valid; lia).
  pose proof (fun w' b' => GetObject_nil_inv dev fuel conn key id buffer w w' b' Hvalid)
    as Hnil.
  assert (exists w' b', GetObject dev fuel conn key id buffer w = Some (w', b', None))
    as (w' & b' & HG).
  { unfold GetObject. rewrite Open_rdonly.
    destruct (Hdev (clock w)) as [-> _].
    pose proof (proj1 (stored_lookup conn key w c) Hc) as HS. rewrite HS.
    apply Stat_file_lookup in HS.
    rewrite (Size_of_file _ _ (opened (ticked w)) c) by exact HS.
    simpl clock. destruct (Hdev (S (clock w))) as [-> _].
    rewrite Hcap, Z.eqb_refl. simpl.
    destruct (GetObject_loop_returns dev fuel
                {| fd_name := Join [root conn; dir conn; key]; fd_pos := 0 |}
                buffer 0 (Z.of_nat (length c)) (ticked (opened (ticked w))) c)
      as (w2 & b2 & ->); simpl; auto; try lia.
    eauto. }
  exists w'. rewrite HG.
  destruct (Hnil _ _ HG) as (_ & Hs & Hl & Hcb & _).
  rewrite Hc in Hs. injection Hs as Hs. destruct b' as [d l]. simpl in *.
  unfold cap in *. simpl in *. subst d. repeat f_equal. lia.
Qed.

(** *** Writing an object *)

(** A [Write] that reports no error ends the loop of [PutObject] with nil,
    whatever the number of bytes it took. *)
Lemma PutObject_loop_first_nil dev fuel fd b bs w w' fd' n :
  Write dev fd (b :: bs) w = (w', fd', (n, None)) ->
  PutObject_loop dev (S fuel) fd (b :: bs) w = Some (w', None).
Proof. intros H. simpl. now rewrite H. Qed.

(** A [Write] that reports an error does not end the loop: the error is
    dropped and the loop goes on with the rest of the buffer. *)
Lemma PutObject_loop_after_error dev fuel fd b bs w w' fd' n e :
  Write dev fd (b :: bs) w = (w', fd', (n, Some e)) ->
  PutObject_loop dev (S fuel) fd (b :: bs) w =
  PutObject_loop dev fuel fd' (drop n (b :: bs)) w'.
Proof. intros H. simpl. now rewrite H. Qed.

(** C1: [PutObject] can return nil with part of the buffer written.  The
    device takes one byte per call and reports no error; of the two bytes
    of the buffer one is stored, after a single [Write], and the result is
    nil. *)
Theorem PutObject_returns_after_partial_write fuel :
  exists w',
    PutObject one_byte_device (S fuel) bench_conn "obj" 7
      ["001"%byte; "002"%byte] bench_world = Some (w', None) /\
    stored bench_conn "obj" w' = Some ["001"%byte] /\
    clock w' = 2%nat.
Proof. eexists. repeat split; vm_compute; reflexivity. Qed.

(** The other side of the same test: when every [Write] fails, [PutObject]
    does not return the error; the loop is still running after any number
    of calls. *)
Lemma PutObject_loop_broken fuel : forall fd b bs w,
  (1 <= clock w)%nat ->
  PutObject_loop broken_device fuel fd (b :: bs) w = None.
Proof.
  induction fuel as [|fuel IH]; intros fd b bs w Hc; [reflexivity|].
  simpl. unfold Write, ask. simpl.
  destruct (clock w) as [|t] eqn:Ht; [lia|]. simpl.
  destruct (fs w !! fd_name fd) as [[|c]|]; simpl; apply IH; simpl; lia.
Qed.

Lemma PutObject_never_returns_write_error fuel :
  PutObject broken_device fuel bench_conn "obj" 7 ["001"%byte] bench_world = None.
Proof.
  unfold PutObject.
  destruct (Open broken_device (Join [root bench_conn; dir bench_conn; "obj"])
              (Z.lor (Z.lor O_WRONLY O_CREAT) O_TRUNC) 420 bench_world)
    as [w r] eqn:E.
  vm_compute in E. injection E as <- <-.
  rewrite PutObject_loop_broken; [reflexivity | simpl; lia].
Qed.

(** Where [PutObject] does what is asked of it: the file can be opened and
    the device takes the whole buffer in the first [Write]. *)
Lemma PutObject_whole_write dev fuel conn key id b bs w :
  let name := Join [root conn; dir conn; key] in
  match Stat (fs w) name with
  | Some Dir => False
  | Some (File _) => True
  | None => Stat (fs w) (parent name) = Some Dir
  end ->
  fault (dev (clock w)) = None ->
  dev (S (clock w)) = {| granted := length (b :: bs); fault := None |} ->
  exists w',
    PutObject dev (S fuel) conn key id (b :: bs) w = Some (w', None) /\
    stored conn key w' = Some (b :: bs) /\
    descriptors w' = descriptors w.
Proof.
  intros name Hst Hf0 Hd1.
  assert (Hname : name <> []).
  { intros E. rewrite E in Hst. exact Hst. }
  assert (HO : Open dev name (Z.lor (Z.lor O_WRONLY O_CREAT) O_TRUNC) 420 w =
               (opened (with_fs (ticked w) (<[name := File []]> (fs w))),
                inl {| fd_name := name; fd_pos := 0 |})).
  { unfold Open, ask. simpl. rewrite Hf0.
    destruct (Stat (fs w) name) as [[|c]|]; [contradiction | reflexivity |].
    rewrite Hst. reflexivity. }
  unfold PutObject. fold name. rewrite HO.
  unfold PutObject_loop, Write, ask. simpl fs. simpl clock. rewrite Hd1.
  rewrite lookup_insert_eq. simpl granted. simpl fault.
  rewrite Nat.min_id. eexists. split; [reflexivity|]. split; [|reflexivity].
  unfold stored. fold name. simpl fs. rewrite (Stat_nonempty _ _ Hname).
  rewrite lookup_insert_eq. simpl. rewrite take_ge by (simpl; lia).
  now rewrite app_nil_r.
Qed.

(** *** The tree stays a tree *)

Lemma well_formed_mkdir (fs : gmap (list string) node) p :
  well_formed fs -> p <> [] -> Stat fs (parent p) = Some Dir ->
  fs !! p = None ->
  well_formed (<[p := Dir]> fs).
Proof.
  intros Hwf Hne Hpar Hfree q n Hq.
  destruct (decide (q = p)) as [->|Hqp].
  - split; [exact Hne|].
    destruct (decide (parent p = [])) as [->|Hpp]; [reflexivity|].
    rewrite (Stat_nonempty _ _ Hpp), lookup_insert_ne.
    + now rewrite <- (Stat_nonempty _ _ Hpp).
    + intros E. rewrite <- E in Hpar at 1.
      rewrite (Stat_nonempty _ _ Hne) in Hpar. congruence.
  - rewrite lookup_insert_ne in Hq by congruence.
    destruct (Hwf q n Hq) as [Hqne Hqpar]. split; [exact Hqne|].
    destruct (decide (parent q = [])) as [->|Hpq]; [reflexivity|].
    rewrite (Stat_nonempty _ _ Hpq). rewrite (Stat_nonempty _ _ Hpq) in Hqpar.
    destruct (decide (p = parent q)) as [->|Hne'].
    + apply lookup_insert_eq.
    + now rewrite lookup_insert_ne.
Qed.

(** [MkdirAll], and so [CreateDirectory], keeps every entry inside a
    directory. *)
Lemma MkdirAll_rev_well_formed rp perm w :
  well_formed (fs w) -> well_formed (fs (fst (MkdirAll_rev rp perm w))).
Proof.
  revert w. induction rp as [|x rparent IH]; intros w Hwf.
  - exact Hwf.
  - rewrite MkdirAll_rev_cons.
    pose proof (snoc_nonempty (rev rparent) x) as Hne.
    destruct (Stat (fs w) (rev rparent ++ [x])) as [[|c]|] eqn:HS; try exact Hwf.
    specialize (IH w Hwf).
    destruct (MkdirAll_rev rparent perm w) as [w1 err] eqn:E. simpl in IH.
    destruct err as [e|]; [exact IH|].
    destruct (Mkdir w1 (rev rparent ++ [x]) perm) as [w2 [e|]] eqn:EM.
    + apply Mkdir_error in EM. subst w2.
      now destruct (Stat (fs w1) (rev rparent ++ [x])) as [[|c]|].
    + apply Mkdir_made in EM as (-> & Hp & Hpar). simpl.
      apply well_formed_mkdir; auto.
      now rewrite <- (Stat_nonempty _ _ Hne).
Qed.

Lemma CreateDirectory_well_formed conn w :
  well_formed (fs w) -> well_formed (fs (fst (CreateDirectory conn w))).
Proof.
  intros Hwf. unfold CreateDirectory, MkdirAll.
  destruct (filepath_Join [root conn; dir conn]) as [|p]; [exact Hwf|].
  now apply MkdirAll_rev_well_formed.
Qed.

Lemma empty_well_formed (w : World) : fs w = ∅ -> well_formed (fs w).
Proof. intros E p n H. rewrite E in H. now rewrite lookup_empty in H. Qed.

Example bench_world_well_formed : well_formed (fs bench_world).
Proof.
  apply (CreateDirectory_well_formed bench_conn fresh_world).
  now apply empty_well_formed.
Qed.

End FileConnFacts.

(** * Further properties of the code *)

(** ** [validateArguments], [main], [startServer] and [startRun] *)

Module MainCoverage.
Import Go SizePattern SizePatternFacts Main MainFacts.
Local Open Scope Z_scope.

(** X1: [validateArguments] returns nil exactly when both ports are port
    numbers (the S3 port is checked for every command) and the pattern
    occurs somewhere in the size text. *)
Theorem validateArguments_nil_iff args :
  snd (validateArguments args) = None <->
  ports_in_range args /\
  exists pre num u post, occurs_at (Size args) pre num u post.
Proof.
  split.
  - intros H. destruct (validateArguments args) as [args' e] eqn:E.
    simpl in H. subst e.
    destruct (validateArguments_inv _ _ E)
      as (Hp & pre & num & u & post & n & Hocc & _).
    split; [exact Hp | eauto].
  - intros (Hp & pre & num & u & post & Hocc).
    destruct (leftmost_exists _ _ _ _ _ Hocc) as (p1 & n1 & u1 & q1 & H1 & Hl).
    destruct (number_decimal n1 (proj1 (proj2 H1))) as (n & Hn & _).
    now rewrite (validateArguments_accepts _ _ _ _ _ _ Hp H1 Hl Hn).
Qed.

(** X2: [validateArguments] writes to [SizeInBytes] and to no other field,
    and when it returns an error it has written to nothing. *)
Theorem validateArguments_writes_size_only args :
  (exists v, fst (validateArguments args) = set_SizeInBytes args v) /\
  (snd (validateArguments args) <> None -> fst (validateArguments args) = args).
Proof.
  split; [apply validateArguments_frame|].
  unfold validateArguments.
  destruct ((Port args <? 0) || (Port args >? MaxUint16))%bool; [reflexivity|].
  destruct ((S3Port args <? 0) || (S3Port args >? MaxUint16))%bool; [reflexivity|].
  destruct (FindStringSubmatch (Size args)) as [groups|]; [|reflexivity].
  destruct (Atoi (nth 1 groups EmptyString)) as [val e].
  destruct (EqualFold (nth 2 groups EmptyString) "m"); simpl; congruence.
Qed.

Lemma mul64_1024_bounds x :
  0 <= mul64 x 1024 < 2 ^ 64 /\ (1024 | mul64 x 1024).
Proof.
  unfold mul64, uint64. split; [apply Z.mod_pos_bound; lia|].
  change (2 ^ 64) with (1024 * 2 ^ 54).
  rewrite (Z.mul_comm x 1024), Zmult_mod_distr_l. apply Z.divide_factor_l.
Qed.

Lemma size_in_bytes_bounds n u :
  0 <= size_in_bytes n u < 2 ^ 64 /\ (1024 | size_in_bytes n u).
Proof.
  unfold size_in_bytes.
  destruct (Ascii.eqb u "m" || Ascii.eqb u "M")%bool; apply mul64_1024_bounds.
Qed.

(** X3: after a nil result the size in bytes is a [uint64] value and a
    multiple of 1024, whatever the numeral was. *)
Theorem validated_size_multiple_of_1024 args args' :
  validateArguments args = (args', None) ->
  0 <= SizeInBytes args' < 2 ^ 64 /\ (1024 | SizeInBytes args').
Proof.
  intros H. destruct (validateArguments_inv _ _ H)
    as (_ & pre & num & u & post & n & _ & _ & _ & _ & ->).
  simpl. apply size_in_bytes_bounds.
Qed.

Lemma validated_size_multiple_of_1024_witness :
  0 <= SizeInBytes (set_SizeInBytes (run_args true "3k" 1000 "") 3072) < 2 ^ 64 /\
  (1024 | SizeInBytes (set_SizeInBytes (run_args true "3k" 1000 "") 3072)).
Proof.
  apply (validated_size_multiple_of_1024 (run_args true "3k" 1000 "")).
  reflexivity.
Defined.

(** X4: a numeral of 2^63 or more is not refused.  With both ports in
    range and such a numeral in the leftmost occurrence of the pattern,
    [Atoi] gives the largest [int] for it and its error is dropped, so the
    size in bytes is 2^64 less the factor of the unit, the same for every
    such numeral. *)
Theorem validateArguments_huge_numeral args pre num u post n :
  ports_in_range args ->
  occurs_at (Size args) pre num u post -> leftmost (Size args) pre ->
  decimal num = Some n -> 2 ^ 63 <= n ->
  snd (validateArguments args) = None /\
  SizeInBytes (fst (validateArguments args)) = 2 ^ 64 - unit_factor u.
Proof.
  intros Hp Hocc Hl Hn Hbig.
  rewrite (validateArguments_accepts _ _ _ _ _ _ Hp Hocc Hl Hn).
  split; [reflexivity|]. simpl.
  unfold size_in_bytes, saturate, unit_factor.
  destruct (n >=? 2 ^ 63) eqn:E; [|rewrite Z.geb_leb in E; apply Z.leb_gt in E; lia].
  destruct (Ascii.eqb u "m" || Ascii.eqb u "M")%bool; reflexivity.
Qed.

Lemma validateArguments_huge_numeral_witness :
  snd (validateArguments (run_args true "9223372036854775808k" 1000 "")) = None /\
  SizeInBytes (fst (validateArguments (run_args true "9223372036854775808k" 1000 ""))) =
  2 ^ 64 - unit_factor "k".
Proof.
  apply (validateArguments_huge_numeral
           (run_args true "9223372036854775808k" 1000 "")
           "" "9223372036854775808" "k" "" 9223372036854775808).
  - unfold ports_in_range, MaxUint16. simpl. lia.
  - repeat split; reflexivity.
  - intros ? ? ? ? _. simpl. lia.
  - reflexivity.
  - lia.
Defined.

Lemma uint16_small x : 0 <= x <= MaxUint16 -> uint16 x = x.
Proof. unfold uint16, MaxUint16. intros H. apply Z.mod_small. lia. Qed.

Lemma uint64_int x :
  is_int x -> uint64 x = if x <? 0 then x + 2 ^ 64 else x.
Proof.
  unfold is_int, MinInt64, MaxInt64, uint64. intros H.
  destruct (x <? 0) eqn:E.
  - apply Z.ltb_lt in E. symmetry. apply (Z.mod_unique _ _ (-1)); lia.
  - apply Z.ltb_ge in E. apply Z.mod_small. lia.
Qed.

Section Program.

Variable Report : Type.
Variable zero_report : Report.
Variable now : Z.
Variable setArguments : Job Report -> Arguments -> Job Report.
Variable Manager_Run : Job Report -> Job Report * option error.
Variable MarshalIndent : Report -> string -> string -> list byte * option error.
Variable WriteFile_result : string -> list byte -> Z -> option error.
Variable StartForeman_result : Z -> option error.
Variable prettyPrint : Arguments -> string.

Local Abbreviation run args :=
  (startRun Report zero_report now setArguments Manager_Run MarshalIndent
     WriteFile_result args).
Local Abbreviation program args :=
  (main Report zero_report now setArguments Manager_Run MarshalIndent
     WriteFile_result StartForeman_result prettyPrint args).
Local Abbreviation job args := (buildJob Report zero_report now args).

(** X5: when [validateArguments] returns an error, [main] prints the
    failure and the error and exits with -1; no server is started and no
    job is run. *)
Theorem main_exits_on_bad_arguments args args' e tr :
  validateArguments args = (args', Some e) ->
  program args tr =
  ((tr ++ [EvPrintf "Failure validating arguments" [ASlice []];
           EvPrintf (": %v" ++ LF)%string [AErr e];
           EvExit (-1)])%list, Exited (-1)).
Proof.
  intros Hv. unfold main. rewrite Hv.
  unfold dieOnError, bind, Printf, emit, Exit, ret. simpl.
  now rewrite <- !app_assoc.
Qed.

(** X6: a run command hands to [startRun] the struct as [validateArguments]
    changed it, so [startRun] sees the size in bytes that was computed. *)
Theorem main_run_command args args' tr :
  validateArguments args = (args', None) ->
  Verbose args = false -> Server args = false -> Main.Run args = true ->
  program args tr = run args' tr /\
  exists v, args' = set_SizeInBytes args v /\
            Order.ObjectSize (order Report (job args')) = v.
Proof.
  intros Hv HV HS HR. destruct (validateArguments_frame args) as [v Hf].
  rewrite Hv in Hf. simpl in Hf. split.
  - unfold main. rewrite Hv. subst args'. simpl. rewrite HV, HS, HR.
    unfold bind, ret. simpl.
    now destruct (startRun _ _ _ _ _ _ _ _ tr) as [tr' [[]|c]].
  - exists v. split; [exact Hf|]. subst args'.
    now destruct (buildJob_order Report zero_report now (set_SizeInBytes args v))
      as (_ & -> & _).
Qed.

(** X7: a server command, given without the verbose flag, starts the
    foreman on the port of the arguments, untruncated, and does nothing
    else; if the foreman cannot start, [main] prints the failure and exits
    with -1. *)
Theorem main_server_command args args' tr :
  validateArguments args = (args', None) ->
  Verbose args = false -> Server args = true -> Main.Run args = false ->
  program args tr =
  match StartForeman_result (Port args) with
  | None => ((tr ++ [EvServe (Port args)])%list, Returned tt)
  | Some e =>
      ((tr ++ [EvServe (Port args);
               EvPrintf "Failure creating server" [ASlice []];
               EvPrintf (": %v" ++ LF)%string [AErr e];
               EvExit (-1)])%list, Exited (-1))
  end.
Proof.
  intros Hv HV HS HR. destruct (validateArguments_inv _ _ Hv) as ([Hp _] & _).
  destruct (validateArguments_frame args) as [v Hf].
  rewrite Hv in Hf. simpl in Hf. subst args'.
  unfold main. rewrite Hv. simpl. rewrite HV, HS, HR.
  unfold startServer, dieOnError, bind, Printf, emit, Exit, ret. simpl.
  rewrite (uint16_small _ Hp).
  destruct (StartForeman_result (Port args)); simpl; now rewrite <- ?app_assoc.
Qed.

(** X8: [startRun] keeps the events that came before it, and writes no file
    but the report: any file it writes has the name of the JSON output
    option, which then is not empty, the mode 0644, and as its content the
    encoding of the report that the job holds after the run. *)
Theorem startRun_writes_only_the_report args tr name data perm :
  let j := setArguments (buildJob Report zero_report now args) args in
  let tr' :=
    fst (startRun Report zero_report now setArguments Manager_Run MarshalIndent
           WriteFile_result args tr) in
  take (length tr) tr' = tr /\
  (In (EvWriteFile name data perm) (drop (length tr) tr') ->
   name = JsonOutput args /\ name <> EmptyString /\ perm = 420 /\
   MarshalIndent (report Report (fst (Manager_Run j))) "" "  " = (data, None)).
Proof.
  intros j tr'. subst tr'. rewrite (startRun_unfold _ _ _ _ _ _ _ args tr). fold j.
  set (tr1 := (tr ++ _)%list).
  assert (Htr1 : forall evs, take (length tr) (tr1 ++ evs)%list = tr /\
                 drop (length tr) (tr1 ++ evs)%list =
                 (drop (length tr) tr1 ++ evs)%list).
  { intros evs. subst tr1. rewrite <- !app_assoc.
    now rewrite take_app_length, !drop_app_length. }
  assert (Hno : ~ In (EvWriteFile name data perm) (drop (length tr) tr1)).
  { subst tr1. rewrite drop_app_length. simpl.
    destruct (snd (Manager_Run j)); simpl; intuition discriminate. }
  destruct (MarshalIndent (report Report (fst (Manager_Run j))) "" "  ")
    as [json [me|]] eqn:EM; simpl fst.
  - destruct (Htr1 [EvPrintf "Unable to encode results as json" [ASlice []];
                    EvPrintf (": %v" ++ LF)%string [AErr me]; EvExit (-1)])
      as [-> ->].
    split; [reflexivity|]. rewrite in_app_iff. simpl. intuition discriminate.
  - destruct (String.eqb (JsonOutput args) "") eqn:EJ; simpl fst.
    + destruct (Htr1 [EvPrintf ("Done" ++ LF)%string []]) as [-> ->].
      split; [reflexivity|]. rewrite in_app_iff. simpl. intuition discriminate.
    + apply String.eqb_neq in EJ.
      destruct (WriteFile_result (JsonOutput args) json 420); simpl fst.
      * match goal with |- context [(tr1 ++ ?evs)%list] =>
          destruct (Htr1 evs) as [-> ->] end.
        split; [reflexivity|]. rewrite in_app_iff. simpl.
        intros [H|[H|H]]; [tauto | | intuition discriminate].
        injection H as <- <- <-. repeat split; auto.
      * match goal with |- context [(tr1 ++ ?evs)%list] =>
          destruct (Htr1 evs) as [-> ->] end.
        split; [reflexivity|]. rewrite in_app_iff. simpl.
        intros [H|[H|H]]; [tauto | | intuition discriminate].
        injection H as <- <- <-. repeat split; auto.
Qed.

(** X9: how [startRun] ends does not depend on the error of the run.  It
    returns when the report could be encoded and, if a JSON output file is
    configured, written; otherwise the process exits with -1. *)
Theorem startRun_exit_status args tr :
  let j := setArguments (buildJob Report zero_report now args) args in
  let enc := MarshalIndent (report Report (fst (Manager_Run j))) "" "  " in
  let ok :=
    snd enc = None /\
    (JsonOutput args = EmptyString \/
     WriteFile_result (JsonOutput args) (fst enc) 420 = None) in
  let out :=
    snd (startRun Report zero_report now setArguments Manager_Run MarshalIndent
           WriteFile_result args tr) in
  (out = Returned tt <-> ok) /\ (out = Exited (-1) <-> ~ ok).
Proof.
  intros j enc ok out. subst ok enc out.
  rewrite (startRun_unfold _ _ _ _ _ _ _ args tr). fold j.
  destruct (MarshalIndent (report Report (fst (Manager_Run j))) "" "  ")
    as [json [me|]]; simpl.
  - repeat split; intros; try discriminate; try reflexivity;
      intuition (try discriminate; try congruence).
  - destruct (String.eqb (JsonOutput args) "") eqn:EJ.
    + apply String.eqb_eq in EJ. simpl.
      repeat split; intros; try discriminate; try reflexivity;
        intuition (try discriminate; try congruence).
    + apply String.eqb_neq in EJ.
      destruct (WriteFile_result (JsonOutput args) json 420); simpl;
        repeat split; intros; try discriminate; try reflexivity;
        intuition (try discriminate; try congruence).
Qed.

(** X10: for validated arguments the two ports go into the job unchanged:
    the conversions to 16 bits lose nothing. *)
Theorem validated_ports_kept args args' :
  validateArguments args = (args', None) ->
  serverPort Report (job args') = Port args /\
  (S3 args = true -> Order.Port (order Report (job args')) = S3Port args).
Proof.
  intros Hv. destruct (validateArguments_inv _ _ Hv) as ([Hp Hs] & _).
  destruct (validateArguments_frame args) as [v Hf].
  rewrite Hv in Hf. simpl in Hf. subst args'.
  unfold buildJob. simpl. split; [now apply uint16_small|].
  intros ->. simpl. now apply uint16_small.
Qed.

(** X11: the times and the object count are not validated.  A value that is
    not negative goes into the job as it is; a negative one goes in as that
    value plus 2^64, which is at least 2^63. *)
Theorem unvalidated_counts_wrap args :
  is_int (RunTime args) -> is_int (RampUp args) -> is_int (RampDown args) ->
  is_int (Objects args) ->
  let j := job args in
  runTime Report j = (if RunTime args <? 0 then RunTime args + 2 ^ 64 else RunTime args) /\
  rampUp Report j = (if RampUp args <? 0 then RampUp args + 2 ^ 64 else RampUp args) /\
  rampDown Report j =
    (if RampDown args <? 0 then RampDown args + 2 ^ 64 else RampDown args) /\
  Order.RangeEnd (order Report j) =
    (if Objects args <? 0 then Objects args + 2 ^ 64 else Objects args).
Proof.
  intros H1 H2 H3 H4 j. subst j.
  destruct (buildJob_order Report zero_report now args) as (_ & _ & _ & _ & _ & -> & _).
  unfold buildJob. simpl.
  now rewrite !uint64_int by assumption.
Qed.

End Program.

Lemma main_exits_on_bad_arguments_witness :
  main unit tt 0 (fun j _ => j) (fun j => (j, None)) (fun _ _ _ => ([], None))
    (fun _ _ _ => None) (fun _ => None) (fun _ => EmptyString)
    (run_args true "1G" 1000 "") [] =
  ([EvPrintf "Failure validating arguments" [ASlice []];
    EvPrintf (": %v" ++ LF)%string [AErr (Errorf "Bad size specifier: %v" [AStr "1G"])];
    EvExit (-1)], Exited (-1)).
Proof.
  exact (main_exits_on_bad_arguments unit tt 0 (fun j _ => j) (fun j => (j, None))
           (fun _ _ _ => ([], None)) (fun _ _ _ => None) (fun _ => None)
           (fun _ => EmptyString) (run_args true "1G" 1000 "") _ _ [] eq_refl).
Defined.

Lemma main_run_command_witness :
  main unit tt 0 (fun j _ => j) (fun j => (j, None)) (fun _ _ _ => ([], None))
    (fun _ _ _ => None) (fun _ => None) (fun _ => EmptyString)
    (run_args true "2k" 1000 "") [] =
  startRun unit tt 0 (fun j _ => j) (fun j => (j, None)) (fun _ _ _ => ([], None))
    (fun _ _ _ => None) (set_SizeInBytes (run_args true "2k" 1000 "") 2048) [].
Proof.
  exact (proj1 (main_run_command unit tt 0 (fun j _ => j) (fun j => (j, None))
           (fun _ _ _ => ([], None)) (fun _ _ _ => None) (fun _ => None)
           (fun _ => EmptyString) (run_args true "2k" 1000 "") _ []
           eq_refl eq_refl eq_refl eq_refl)).
Defined.

Lemma validated_ports_kept_witness :
  serverPort unit (buildJob unit tt 0 (set_SizeInBytes (run_args true "2k" 1000 "") 2048)) = 5150 /\
  (true = true ->
   Order.Port (order unit (buildJob unit tt 0
                 (set_SizeInBytes (run_args true "2k" 1000 "") 2048))) = 7480).
Proof.
  exact (validated_ports_kept unit tt 0 (run_args true "2k" 1000 "") _ eq_refl).
Defined.

Lemma main_server_command_witness :
  main unit tt 0 (fun j _ => j) (fun j => (j, None)) (fun _ _ _ => ([], None))
    (fun _ _ _ => None) (fun _ => None) (fun _ => EmptyString)
    (mkArguments true false false false false 5150 "1M" 1000 "localhost" 30 5 2
       "" [] "" "" "sibench" 7480 "sibench" "admin" "" "" 0) [] =
  ([EvServe 5150], Returned tt).
Proof.
  exact (main_server_command unit tt 0 (fun j _ => j) (fun j => (j, None))
           (fun _ _ _ => ([], None)) (fun _ _ _ => None) (fun _ => None)
           (fun _ => EmptyString)
           (mkArguments true false false false false 5150 "1M" 1000 "localhost"
              30 5 2 "" [] "" "" "sibench" 7480 "sibench" "admin" "" "" 0)
           _ [] eq_refl eq_refl eq_refl eq_refl).
Defined.

Lemma unvalidated_counts_wrap_witness :
  let j := buildJob unit tt 0
             (mkArguments false true false true false 5150 "1M" (-1) "localhost"
                (-30) 5 0 "" [] "" "" "sibench" 7480 "sibench" "admin" "" "" 0) in
  runTime unit j = (-30) + 2 ^ 64 /\ rampUp unit j = 5 /\ rampDown unit j = 0 /\
  Order.RangeEnd (order unit j) = (-1) + 2 ^ 64.
Proof.
  apply (unvalidated_counts_wrap unit tt 0
           (mkArguments false true false true false 5150 "1M" (-1) "localhost"
              (-30) 5 0 "" [] "" "" "sibench" 7480 "sibench" "admin" "" "" 0));
    unfold is_int, MinInt64, MaxInt64; simpl; lia.
Defined.

(** *** The list of servers *)

Lemma string_app_cons c (s t : string) :
  (String c s ++ t)%string = String c (s ++ t)%string.
Proof. reflexivity. Qed.

Lemma string_app_nil_r (s : string) : (s ++ "")%string = s.
Proof. induction s as [|c s IH]; [reflexivity|]. now rewrite string_app_cons, IH. Qed.

Lemma string_app_assoc (s t u : string) :
  ((s ++ t) ++ u)%string = (s ++ t ++ u)%string.
Proof.
  induction s as [|c s IH]; [reflexivity|]. now rewrite !string_app_cons, IH.
Qed.

Lemma count_app c (s t : string) :
  Text.count c (s ++ t)%string = (Text.count c s + Text.count c t)%nat.
Proof.
  induction s as [|d s IH]; [reflexivity|].
  rewrite string_app_cons. simpl. rewrite IH. lia.
Qed.

Lemma split_on_nonempty sep cur s : split_on sep cur s <> [].
Proof.
  revert cur. induction s as [|c s IH]; intros cur; simpl; [discriminate|].
  destruct (Ascii.eqb c sep); [discriminate | apply IH].
Qed.

Lemma Join_cons s rest sep :
  rest <> [] -> Text.Join (s :: rest) sep = (s ++ String sep (Text.Join rest sep))%string.
Proof. destruct rest; [contradiction | reflexivity]. Qed.

Lemma split_on_spec sep cur s :
  Text.count sep cur = O ->
  Text.Join (split_on sep cur s) sep = (cur ++ s)%string /\
  length (split_on sep cur s) = S (Text.count sep s) /\
  Forall (fun piece => Text.count sep piece = O) (split_on sep cur s).
Proof.
  revert cur. induction s as [|c s IH]; intros cur Hcur; simpl.
  - rewrite string_app_nil_r. repeat split. now constructor.
  - destruct (Ascii.eqb c sep) eqn:E.
    + apply Ascii.eqb_eq in E. subst c.
      destruct (IH EmptyString eq_refl) as (HJ & HL & HF).
      rewrite Join_cons by apply split_on_nonempty. rewrite HJ. simpl.
      repeat split; [now rewrite HL | now constructor].
    + assert (Hc : Text.count sep (cur ++ String c "")%string = O).
      { rewrite count_app, Hcur. simpl. now rewrite E. }
      destruct (IH _ Hc) as (HJ & HL & HF).
      rewrite HJ, string_app_assoc. repeat split; auto.
Qed.

(** X12: the servers of the job are the pieces of the servers option
    between its commas: joined by commas they give the option back, there is
    one more of them than there are commas, and none holds a comma.  So the
    list is never empty, and an empty option gives one server with an empty
    name. *)
Theorem servers_split (Report : Type) (zr : Report) (now : Z) args :
  let l := servers Report (buildJob Report zr now args) in
  Text.Join l "," = Servers args /\
  length l = S (Text.count "," (Servers args)) /\
  Forall (fun piece => Text.count "," piece = O) l /\
  (Servers args = EmptyString -> l = [EmptyString]).
Proof.
  intros l. subst l. unfold buildJob. simpl. unfold Split.
  destruct (split_on_spec "," EmptyString (Servers args) eq_refl) as (HJ & HL & HF).
  repeat split; auto. now intros ->.
Qed.

End MainCoverage.

(** ** The connection: directories, object paths, writing and reading *)

Module FileConnCoverage.
Import Go FileConn FileConnFacts Samples.
Local Open Scope list_scope.

(** *** Creating the directory *)

(** [MkdirAll] leaves alone what is not of the tree. *)
Lemma MkdirAll_rev_fields rp perm w w' r :
  MkdirAll_rev rp perm w = (w', r) ->
  clock w' = clock w /\ descriptors w' = descriptors w /\
  privileged w' = privileged w /\ umask w' = umask w.
Proof.
  revert w w' r. induction rp as [|x rparent IH]; intros w w' r H.
  - simpl in H. now injection H as <- _.
  - rewrite MkdirAll_rev_cons in H.
    destruct (Stat (fs w) (rev rparent ++ [x])) as [[|c]|];
      try (now injection H as <- _).
    destruct (MkdirAll_rev rparent perm w) as [w1 err] eqn:E.
    specialize (IH _ _ _ E).
    destruct err as [e|]; [now injection H as <- _|].
    destruct (Mkdir w1 (rev rparent ++ [x]) perm) as [w2 [e|]] eqn:EM.
    + apply Mkdir_error in EM. subst w2.
      destruct (Stat (fs w1) (rev rparent ++ [x])) as [[|c]|];
        now injection H as <- _.
    + injection H as <- _. now apply Mkdir_made in EM as (-> & _ & _).
Qed.

(** [MkdirAll] only adds directories: every entry is as it was, or was
    missing and is a directory now, with the bits that were asked for less
    the umask. *)
Lemma MkdirAll_rev_grows rp perm w w' r :
  MkdirAll_rev rp perm w = (w', r) ->
  forall q, fs w' !! q = fs w !! q \/
            (fs w !! q = None /\ fs w' !! q = Some Dir /\
             modes w' !! q = Some (Z.ldiff perm (umask w))).
Proof.
  revert w w' r. induction rp as [|x rparent IH]; intros w w' r H q.
  - simpl in H. injection H as <- _. now left.
  - rewrite MkdirAll_rev_cons in H.
    pose proof (snoc_nonempty (rev rparent) x) as Hne.
    destruct (Stat (fs w) (rev rparent ++ [x])) as [[|c]|] eqn:HS;
      try (injection H as <- _; now left).
    rewrite (Stat_nonempty _ _ Hne) in HS.
    destruct (MkdirAll_rev rparent perm w) as [w1 err] eqn:E.
    pose proof (IH _ _ _ E) as Hgrow.
    destruct (MkdirAll_rev_spec _ _ _ _ _ E) as [Hframe _].
    destruct (MkdirAll_rev_fields _ _ _ _ _ E) as (_ & _ & _ & Hu).
    destruct err as [e|]; [injection H as <- _; apply Hgrow|].
    destruct (Mkdir w1 (rev rparent ++ [x]) perm) as [w2 [e|]] eqn:EM.
    + apply Mkdir_error in EM. subst w2.
      destruct (Stat (fs w1) (rev rparent ++ [x])) as [[|c]|];
        injection H as <- _; apply Hgrow.
    + injection H as <- _. apply Mkdir_made in EM as (-> & _ & _). simpl.
      destruct (decide (q = rev rparent ++ [x])) as [->|Hq].
      * right. rewrite !lookup_insert_eq, Hu. auto.
      * rewrite !lookup_insert_ne by congruence. apply Hgrow.
Qed.

(** X13: what [CreateDirectory] does to the state.  It makes no call on the
    device and opens nothing; it touches no path that is not on the way to
    the directory; every entry is as it was or is a directory that was
    missing and now has the bits 0644 less the umask, so no file is
    replaced or lost; after nil the directory is there, and after an error
    it is not, though directories on the way to it may have been made. *)
Theorem CreateDirectory_effect conn w w' r :
  CreateDirectory conn w = (w', r) ->
  clock w' = clock w /\ descriptors w' = descriptors w /\
  (forall q, ~ q `prefix_of` Join [root conn; dir conn] -> fs w' !! q = fs w !! q) /\
  (forall q, fs w' !! q = fs w !! q \/
             (fs w !! q = None /\ fs w' !! q = Some Dir /\
              modes w' !! q = Some (Z.ldiff 420 (umask w)))) /\
  match r with
  | None => Stat (fs w') (Join [root conn; dir conn]) = Some Dir
  | Some _ =>
      filepath_Join [root conn; dir conn] = Nowhere \/
      Stat (fs w') (Join [root conn; dir conn]) <> Some Dir
  end.
Proof.
  intros H. unfold CreateDirectory, MkdirAll in H.
  destruct (filepath_Join_cases [root conn; dir conn]) as [[E _]|E]; rewrite E in H.
  - injection H as <- <-. repeat split; auto.
  - destruct (MkdirAll_rev_spec _ _ _ _ _ H) as [Hframe Hres].
    destruct (MkdirAll_rev_fields _ _ _ _ _ H) as (Hc & Hd & _ & _).
    rewrite rev_involutive in Hframe, Hres.
    split; [exact Hc|]. split; [exact Hd|]. split; [exact Hframe|].
    split; [exact (MkdirAll_rev_grows _ _ _ _ _ H)|].
    destruct r as [e|]; [now right | exact Hres].
Qed.

Lemma CreateDirectory_effect_witness :
  let w' := fst (CreateDirectory bench_conn user_world) in
  CreateDirectory bench_conn user_world = (w', Some (Errno "EACCES")) /\
  fs w' !! ["mnt"] = Some Dir /\ modes w' !! ["mnt"] = Some 420%Z /\
  (clock w' = clock user_world /\ descriptors w' = descriptors user_world /\
   (forall q, ~ q `prefix_of` Join [root bench_conn; dir bench_conn] ->
              fs w' !! q = fs user_world !! q) /\
   (forall q, fs w' !! q = fs user_world !! q \/
              (fs user_world !! q = None /\ fs w' !! q = Some Dir /\
               modes w' !! q = Some (Z.ldiff 420 (umask user_world)))) /\
   (filepath_Join [root bench_conn; dir bench_conn] = Nowhere \/
    Stat (fs w') (Join [root bench_conn; dir bench_conn]) <> Some Dir)).
Proof.
  intros w'. split; [reflexivity|]. split; [reflexivity|]. split; [reflexivity|].
  exact (CreateDirectory_effect bench_conn user_world w' (Some (Errno "EACCES"))
           eq_refl).
Defined.

(** In a tree every path on the way to an entry is a directory. *)
Lemma ancestors_are_directories (fs : gmap (list string) node) k :
  well_formed fs ->
  forall q n, k <> [] -> fs !! (q ++ k) = Some n -> Stat fs q = Some Dir.
Proof.
  intros Hwf. induction k as [|x k' IH] using rev_ind; intros q n Hk H;
    [contradiction|].
  destruct (Hwf _ _ H) as [_ Hpar].
  rewrite app_assoc, parent_snoc in Hpar.
  destruct k' as [|y k''].
  - now rewrite app_nil_r in Hpar.
  - assert (Hne : q ++ y :: k'' <> []) by (now destruct q).
    rewrite (Stat_nonempty _ _ Hne) in Hpar.
    apply (IH q Dir); [discriminate | exact Hpar].
Qed.

Lemma prefix_snoc_inv (q l : list string) x :
  q `prefix_of` l ++ [x] -> q = l ++ [x] \/ q `prefix_of` l.
Proof.
  intros [k Hk]. destruct (decide (k = [])) as [->|Hk'].
  - left. now rewrite app_nil_r in Hk.
  - right. destruct (exists_last Hk') as (k0 & y & ->).
    rewrite app_assoc in Hk. apply app_inj_tail in Hk as [-> _].
    now apply prefix_app_r.
Qed.

Lemma MkdirAll_rev_file_in_the_way (rp : list string) (perm : Z)
  (w : World) (q : list string) (c : list byte) :
  well_formed (fs w) -> fs w !! q = Some (File c) -> q `prefix_of` rev rp ->
  MkdirAll_rev rp perm w = (w, Some (Errno "ENOTDIR")).
Proof.
  intros Hwf Hq. induction rp as [|x rparent IH]; intros Hpre.
  - apply prefix_nil_inv in Hpre. subst q. now destruct (Hwf _ _ Hq).
  - rewrite MkdirAll_rev_cons.
    pose proof (snoc_nonempty (rev rparent) x) as Hne.
    change (rev (x :: rparent)) with (rev rparent ++ [x]) in Hpre.
    destruct (prefix_snoc_inv _ _ _ Hpre) as [->|Hq'].
    { rewrite (Stat_nonempty _ _ Hne), Hq. reflexivity. }
    rewrite (Stat_nonempty _ _ Hne).
    destruct (fs w !! (rev rparent ++ [x])) as [n|] eqn:HS.
    { destruct Hq' as [k Hk]. rewrite Hk, <- app_assoc in HS.
      pose proof (ancestors_are_directories (fs w) (k ++ [x]) Hwf q n
                    (snoc_nonempty k x) HS) as HD.
      assert (Hqn : q <> []) by (intros ->; now destruct (Hwf _ _ Hq)).
      rewrite (Stat_nonempty _ _ Hqn), Hq in HD. discriminate. }
    now rewrite (IH Hq').
Qed.

(** X14: in a tree where a file lies on the way to the directory (or in its
    place), [CreateDirectory] returns ENOTDIR and changes nothing. *)
Theorem CreateDirectory_file_in_the_way conn w q c :
  well_formed (fs w) ->
  q `prefix_of` Join [root conn; dir conn] ->
  fs w !! q = Some (File c) ->
  CreateDirectory conn w = (w, Some (Errno "ENOTDIR")).
Proof.
  intros Hwf Hpre Hq. unfold CreateDirectory, MkdirAll.
  assert (Hne : Join [root conn; dir conn] <> []).
  { intros E. rewrite E in Hpre. apply prefix_nil_inv in Hpre. subst q.
    now destruct (Hwf _ _ Hq). }
  rewrite (filepath_Join_at _ Hne).
  apply (MkdirAll_rev_file_in_the_way _ 420 w q c Hwf Hq).
  now rewrite rev_involutive.
Qed.

(** *** The tree stays a tree under every operation *)

Lemma well_formed_put_file (fs : gmap (list string) node) (p : list string)
  (c : list byte) :
  well_formed fs -> p <> [] ->
  (exists c0, fs !! p = Some (File c0)) \/
  (fs !! p = None /\ Stat fs (parent p) = Some Dir) ->
  well_formed (<[p := File c]> fs).
Proof.
  intros Hwf Hne Hp q n Hq.
  assert (Hfs : fs !! p <> Some Dir).
  { destruct Hp as [[c0 H]|[H _]]; rewrite H; discriminate. }
  assert (Hpar : Stat fs (parent p) = Some Dir).
  { destruct Hp as [[c0 H]|[_ H]]; [|exact H]. now destruct (Hwf _ _ H). }
  assert (Hkeep : forall q', q' <> p -> Stat (<[p := File c]> fs) q' = Stat fs q').
  { intros q' Hq'. destruct q' as [|y q'']; [reflexivity|].
    simpl. now rewrite lookup_insert_ne. }
  destruct (decide (q = p)) as [->|Hqp].
  - split; [exact Hne|]. rewrite Hkeep; [exact Hpar|].
    intros E. rewrite E, (Stat_nonempty _ _ Hne) in Hpar. congruence.
  - rewrite lookup_insert_ne in Hq by congruence.
    destruct (Hwf q n Hq) as [Hqne Hqpar]. split; [exact Hqne|].
    rewrite Hkeep; [exact Hqpar|].
    intros E. rewrite E, (Stat_nonempty _ _ Hne) in Hqpar. congruence.
Qed.

Lemma well_formed_remove (w : World) (p : list string) :
  well_formed (fs w) -> well_formed (fs (removed w p)).
Proof.
  intros Hwf q n Hq. simpl in Hq.
  apply map_lookup_filter_Some in Hq as [Hq Hpre]. simpl in Hpre.
  destruct (Hwf q n Hq) as [Hqne Hqpar]. split; [exact Hqne|].
  destruct (decide (parent q = [])) as [E|Hpq]; [now rewrite E|].
  rewrite (Stat_nonempty _ _ Hpq) in Hqpar. rewrite (Stat_nonempty _ _ Hpq). simpl.
  apply map_lookup_filter_Some. split; [exact Hqpar|]. simpl.
  intros Hpp. apply Hpre. etrans; [exact Hpp|].
  destruct (exists_last Hqne) as (q0 & y & ->).
  rewrite parent_snoc. now apply prefix_app_r.
Qed.

Lemma Open_well_formed dev name flags mode w :
  well_formed (fs w) -> well_formed (fs (fst (Open dev name flags mode w))).
Proof.
  intros Hwf. unfold Open, ask. simpl.
  destruct (fault (dev (clock w))); [exact Hwf|].
  destruct (Stat (fs w) name) as [[|c]|] eqn:HS; simpl; try exact Hwf.
  - assert (Hne : name <> []) by (intros ->; discriminate HS).
    destruct (has_flag flags O_TRUNC); simpl; [|exact Hwf].
    apply well_formed_put_file; auto. left. exists c.
    now rewrite <- (Stat_nonempty _ _ Hne).
  - assert (Hne : name <> []) by (intros ->; discriminate HS).
    destruct (has_flag flags O_CREAT); simpl; [|exact Hwf].
    destruct (Stat (fs w) (parent name)) as [[|c]|] eqn:HP; simpl; try exact Hwf.
    apply well_formed_put_file; auto. right.
    now rewrite <- (Stat_nonempty _ _ Hne).
Qed.

Lemma Write_well_formed dev fd p w :
  well_formed (fs w) -> well_formed (fs (fst (fst (Write dev fd p w)))).
Proof.
  intros Hwf. unfold Write, ask. simpl.
  destruct (fs w !! fd_name fd) as [[|c]|] eqn:HF; simpl; try exact Hwf.
  destruct (Hwf _ _ HF) as [Hne _].
  apply well_formed_put_file; auto. left. now exists c.
Qed.

Lemma PutObject_loop_well_formed dev fuel : forall fd buffer w w' r,
  well_formed (fs w) ->
  PutObject_loop dev fuel fd buffer w = Some (w', r) -> well_formed (fs w').
Proof.
  induction fuel as [|fuel IH]; intros fd buffer w w' r Hwf H.
  - destruct buffer; [|discriminate]. simpl in H. now injection H as <- _.
  - destruct buffer as [|b bs]; [simpl in H; now injection H as <- _|].
    simpl in H. pose proof (Write_well_formed dev fd (b :: bs) w Hwf) as HW.
    destruct (Write dev fd (b :: bs) w) as [[w1 fd1] [n [e|]]]; simpl in HW.
    + eapply IH; eauto.
    + now injection H as <- _.
Qed.

(** *** Reading never reaches outside the slice *)

Lemma Read_frame dev fd buffer start w w1 fd1 b1 n err :
  Read dev fd buffer start w = (w1, fd1, b1, (n, err)) ->
  (start <= len buffer)%nat -> (len buffer <= length (data buffer))%nat ->
  fs w1 = fs w /\ descriptors w1 = descriptors w /\
  len b1 = len buffer /\ length (data b1) = length (data buffer) /\
  drop (len buffer) (data b1) = drop (len buffer) (data buffer) /\
  take start (data b1) = take start (data buffer) /\
  (start + n <= len buffer)%nat.
Proof.
  intros H Hs Hl. unfold Read, ask in H. simpl in H.
  destruct (fs w !! fd_name fd) as [[|c]|].
  - injection H as <- _ <- <- _. repeat split; lia.
  - set (m := Nat.min (granted (dev (clock w)))
                (Nat.min (len buffer - start) (length c - fd_pos fd))) in *.
    assert (Hm : (m <= len buffer - start /\ m <= length c - fd_pos fd)%nat)
      by (subst m; lia).
    injection H as <- _ <- <- _. simpl.
    assert (Hchunk : length (take m (drop (fd_pos fd) c)) = m)
      by (rewrite length_take, length_drop; lia).
    repeat split; try lia.
    + rewrite !length_app, Hchunk, length_take, length_drop. lia.
    + rewrite drop_app_ge by (rewrite length_take; lia).
      rewrite drop_app_ge by (rewrite Hchunk, length_take; lia).
      rewrite Hchunk, length_take, drop_drop. f_equal. lia.
    + rewrite take_app_length'; [reflexivity | rewrite length_take; lia].
  - injection H as <- _ <- <- _. repeat split; lia.
Qed.

Lemma GetObject_loop_frame dev fuel : forall fd buffer start remaining w w' b' r,
  (start <= len buffer)%nat -> (len buffer <= length (data buffer))%nat ->
  GetObject_loop dev fuel fd buffer start remaining w = Some (w', b', r) ->
  fs w' = fs w /\ descriptors w' = descriptors w /\
  len b' = len buffer /\ length (data b') = length (data buffer) /\
  drop (len buffer) (data b') = drop (len buffer) (data buffer) /\
  take start (data b') = take start (data buffer).
Proof.
  induction fuel as [|fuel IH]; intros fd buffer start remaining w w' b' r Hs Hl H.
  - simpl in H. destruct (remaining >? 0)%Z; [discriminate|].
    injection H as <- <- _. repeat split.
  - simpl in H. destruct (remaining >? 0)%Z;
      [|injection H as <- <- _; repeat split].
    destruct (Read dev fd buffer start w) as [[[w1 fd1] b1] [n err]] eqn:ER.
    destruct (Read_frame _ _ _ _ _ _ _ _ _ _ ER Hs Hl)
      as (Hfs & Hd & Hlen & Hdata & Hdrop & Htake & Hn).
    destruct err as [e|].
    + injection H as <- <- _. repeat split; auto.
    + apply IH in H; [|lia|lia].
      destruct H as (Hfs' & Hd' & Hlen' & Hdata' & Hdrop' & Htake').
      rewrite Hlen in *. repeat split; try congruence.
      assert (take start (take (start + n) (data b')) =
              take start (take (start + n) (data b1))) as HT by now rewrite Htake'.
      rewrite !take_take in HT. replace (Nat.min start (start + n)) with start in HT by lia.
      congruence.
Qed.

(** X20: [GetObject] only reads.  Whatever it returns, the tree is as it
    was and the descriptor it opened is closed; the buffer keeps its length
    and its capacity, and the bytes of the backing array beyond the length
    of the slice are not written. *)
Theorem GetObject_only_reads dev fuel conn key id buffer w w' buffer' r :
  valid buffer ->
  GetObject dev fuel conn key id buffer w = Some (w', buffer', r) ->
  fs w' = fs w /\ descriptors w' = descriptors w /\
  len buffer' = len buffer /\ cap buffer' = cap buffer /\
  drop (len buffer) (data buffer') = drop (len buffer) (data buffer).
Proof.
  intros Hvalid H. unfold GetObject in H. unfold valid, cap in *.
  rewrite Open_rdonly in H.
  destruct (fault (dev (clock w))); [injection H as <- <- _; now repeat split|].
  destruct (Stat (fs w) (Join [root conn; dir conn; key])) as [[|c]|] eqn:HS;
    try (injection H as <- <- _; now repeat split).
  apply Stat_file_lookup in HS.
  rewrite (Size_of_file _ _ (opened (ticked w)) c) in H by exact HS.
  simpl clock in H.
  destruct (fault (dev (S (clock w)))); [injection H as <- <- _; now repeat split|].
  destruct (negb (Z.of_nat (length (data buffer)) =? Z.of_nat (length c))%Z);
    [injection H as <- <- _; now repeat split|].
  destruct (GetObject_loop dev fuel _ buffer 0 _ _) as [[[w2 b2] e2]|] eqn:EL;
    [|discriminate].
  injection H as <- <- _.
  apply GetObject_loop_frame in EL; [|lia|exact Hvalid].
  destruct EL as (Hfs & Hd & Hlen & Hdata & Hdrop & _). simpl in *.
  repeat split; auto. now rewrite Hd.
Qed.

Lemma GetObject_only_reads_witness :
  exists w' buffer' r,
    GetObject flaky_device 5 bench_conn "obj" 7
      {| data := ["000"%byte; "255"%byte]; len := 1 |} object_world =
    Some (w', buffer', r) /\
    data buffer' = ["001"%byte; "255"%byte] /\ r = Some (Errno "EIO") /\
    (fs w' = fs object_world /\ descriptors w' = descriptors object_world /\
     len buffer' = 1%nat /\ cap buffer' = 2%nat /\
     drop 1 (data buffer') = ["255"%byte]).
Proof.
  eexists _, _, _. split; [vm_compute; reflexivity|]. split; [reflexivity|].
  split; [reflexivity|].
  apply (GetObject_only_reads flaky_device 5 bench_conn "obj" 7
           {| data := ["000"%byte; "255"%byte]; len := 1 |} object_world
           _ _ (Some (Errno "EIO"))).
  - unfold valid, cap. simpl. lia.
  - vm_compute. reflexivity.
Defined.

Lemma GetObject_loop_fs dev fuel : forall fd buffer start remaining w w' b' r,
  GetObject_loop dev fuel fd buffer start remaining w = Some (w', b', r) ->
  fs w' = fs w.
Proof.
  induction fuel as [|fuel IH]; intros fd buffer start remaining w w' b' r H; simpl in H.
  - destruct (remaining >? 0)%Z; [discriminate | now injection H as <- _ _].
  - destruct (remaining >? 0)%Z; [|now injection H as <- _ _].
    unfold Read, ask in H. simpl in H.
    destruct (fs w !! fd_name fd) as [[|c]|];
      try (now injection H as <- _ _).
    destruct (fault (dev (clock w))); [now injection H as <- _ _|].
    now apply IH in H.
Qed.

Lemma GetObject_fs dev fuel conn key id buffer w w' b' r :
  GetObject dev fuel conn key id buffer w = Some (w', b', r) -> fs w' = fs w.
Proof.
  intros H. unfold GetObject in H. rewrite Open_rdonly in H.
  destruct (fault (dev (clock w))); [now injection H as <- _ _|].
  destruct (Stat (fs w) (Join [root conn; dir conn; key])) as [[|c]|] eqn:HS;
    try (now injection H as <- _ _).
  apply Stat_file_lookup in HS.
  rewrite (Size_of_file _ _ (opened (ticked w)) c) in H by exact HS.
  destruct (fault (dev (clock (opened (ticked w))))); [now injection H as <- _ _|].
  destruct (negb (Z.of_nat (cap buffer) =? Z.of_nat (length c))%Z);
    [now injection H as <- _ _|].
  destruct (GetObject_loop dev fuel _ buffer 0 _ _) as [[[w2 b2] e2]|] eqn:EL;
    [|discriminate].
  injection H as <- _ _. now apply GetObject_loop_fs in EL.
Qed.

(** X15: every operation of the connection keeps the tree a tree: after
    it, as before it, each entry lies in a directory. *)
Theorem operations_keep_the_tree conn w :
  well_formed (fs w) ->
  well_formed (fs (fst (CreateDirectory conn w))) /\
  well_formed (fs (fst (DeleteDirectory conn w))) /\
  (forall dev fuel key id buffer w' r,
     PutObject dev fuel conn key id buffer w = Some (w', r) -> well_formed (fs w')) /\
  (forall dev fuel key id buffer w' buffer' r,
     GetObject dev fuel conn key id buffer w = Some (w', buffer', r) ->
     well_formed (fs w')).
Proof.
  intros Hwf. split; [now apply CreateDirectory_well_formed|]. split; [|split].
  - unfold DeleteDirectory, RemoveAll.
    destruct (filepath_Join [root conn; dir conn]) as [|p]; [exact Hwf|].
    now apply well_formed_remove.
  - intros dev fuel key id buffer w' r H. unfold PutObject in H.
    pose proof (Open_well_formed dev (Join [root conn; dir conn; key])
                  (Z.lor (Z.lor O_WRONLY O_CREAT) O_TRUNC) 420 w Hwf) as HO.
    destruct (Open dev _ _ 420 w) as [w1 [fd|e]]; simpl in HO.
    + destruct (PutObject_loop dev fuel fd buffer w1) as [[w2 e2]|] eqn:EL;
        [|discriminate].
      injection H as <- _. simpl. eapply PutObject_loop_well_formed; eauto.
    + now injection H as <- _.
  - intros dev fuel key id buffer w' buffer' r H.
    now rewrite (GetObject_fs _ _ _ _ _ _ _ _ _ _ H).
Qed.

Example object_world_well_formed : well_formed (fs object_world).
Proof.
  unfold object_world. simpl fs.
  apply well_formed_put_file; [apply bench_world_well_formed | discriminate |].
  right. split; reflexivity.
Qed.

Lemma operations_keep_the_tree_witness :
  well_formed (fs (fst (CreateDirectory absent_conn object_world))) /\
  well_formed (fs (fst (DeleteDirectory absent_conn object_world))) /\
  (forall dev fuel key id buffer w' r,
     PutObject dev fuel absent_conn key id buffer object_world = Some (w', r) ->
     well_formed (fs w')) /\
  (forall dev fuel key id buffer w' buffer' r,
     GetObject dev fuel absent_conn key id buffer object_world = Some (w', buffer', r) ->
     well_formed (fs w')).
Proof.
  exact (operations_keep_the_tree absent_conn object_world object_world_well_formed).
Defined.

Lemma CreateDirectory_file_in_the_way_witness :
  CreateDirectory blocked_conn object_world = (object_world, Some (Errno "ENOTDIR")).
Proof.
  apply (CreateDirectory_file_in_the_way blocked_conn object_world
           ["mnt"; "ceph"; "bench"; "obj"] ["001"%byte; "002"%byte]).
  - exact object_world_well_formed.
  - exists ["sub"]. reflexivity.
  - reflexivity.
Defined.

(** *** Where the object of a key lies *)

Lemma clean_from_app seen cs1 cs2 :
  clean_from seen (cs1 ++ cs2) = clean_from (rev (clean_from seen cs1)) cs2.
Proof.
  revert seen. induction cs1 as [|c cs1 IH]; intros seen; simpl.
  - now rewrite rev_involutive.
  - destruct (String.eqb c ".."); apply IH.
Qed.

Lemma clean_from_plain seen cs :
  Forall (fun c => c <> "..") cs -> clean_from seen cs = rev seen ++ cs.
Proof.
  revert seen. induction cs as [|c cs IH]; intros seen Hcs; simpl.
  - now rewrite app_nil_r.
  - inversion Hcs as [|? ? Hc Hrest]; subst.
    apply String.eqb_neq in Hc. rewrite Hc, IH by assumption.
    simpl. now rewrite <- app_assoc.
Qed.

Lemma Join_plain_key conn key :
  Forall (fun c => c <> "..") (components key) ->
  Join [root conn; dir conn; key] = Join [root conn; dir conn] ++ components key.
Proof.
  intros Hkey. unfold Join. simpl flat_map. rewrite !app_nil_r.
  rewrite app_assoc, clean_from_app, clean_from_plain by assumption.
  now rewrite rev_involutive.
Qed.

(** X18: a key with no [..] among its components names a file below the
    directory of the connection: the path of the object is the path of the
    directory followed by the components of the key. *)
Theorem object_path_below_directory conn key :
  Forall (fun c => c <> "..") (components key) ->
  Join [root conn; dir conn; key] = Join [root conn; dir conn] ++ components key /\
  Join [root conn; dir conn] `prefix_of` Join [root conn; dir conn; key].
Proof.
  intros Hkey. rewrite (Join_plain_key conn key Hkey).
  split; [reflexivity | now apply prefix_app_r].
Qed.

Lemma object_path_below_directory_witness :
  Join [root bench_conn; dir bench_conn; "a/./b"] =
  Join [root bench_conn; dir bench_conn] ++ components "a/./b" /\
  Join [root bench_conn; dir bench_conn] `prefix_of`
    Join [root bench_conn; dir bench_conn; "a/./b"].
Proof.
  apply (object_path_below_directory bench_conn "a/./b").
  repeat constructor; discriminate.
Defined.

(** *** Deleting the directory *)















(** *** Writing an object *)

Lemma Open_for_writing dev name w :
  Open dev name (Z.lor (Z.lor O_WRONLY O_CREAT) O_TRUNC) 420 w =
  match fault (dev (clock w)) with
  | Some e => (ticked w, inr e)
  | None =>
      let created :=
        (opened (with_fs (ticked w) (<[name := File []]> (fs w))),
         inl {| fd_name := name; fd_pos := 0 |}) in
      match Stat (fs w) name with
      | Some Dir => (ticked w, inr (Errno "EISDIR"))
      | Some (File _) => created
      | None =>
          match Stat (fs w) (parent name) with
          | Some Dir => created
          | Some (File _) => (ticked w, inr (Errno "ENOTDIR"))
          | None => (ticked w, inr (Errno "ENOENT"))
          end
      end
  end.
Proof.
  unfold Open, ask, ticked. simpl.
  destruct (fault (dev (clock w))); [reflexivity|].
  destruct (Stat (fs w) name) as [[|c]|]; reflexivity.
Qed.

(** One [Write] of the rest of a buffer into a file that holds what came
    before the rest: the file then holds that and the bytes taken. *)
Lemma Write_extends dev fd (orig : list byte) w :
  fs w !! fd_name fd = Some (File (take (fd_pos fd) orig)) ->
  (fd_pos fd <= length orig)%nat ->
  let n := Nat.min (granted (dev (clock w))) (length orig - fd_pos fd) in
  Write dev fd (drop (fd_pos fd) orig) w =
  (with_fs (ticked w) (<[fd_name fd := File (take (fd_pos fd + n) orig)]> (fs w)),
   {| fd_name := fd_name fd; fd_pos := fd_pos fd + n |},
   (n, fault (dev (clock w)))).
Proof.
  intros Hfile Hpos n. unfold Write, ask. simpl. rewrite Hfile.
  rewrite length_drop. fold n. unfold with_fs. simpl.
  repeat f_equal.
  rewrite take_take, Nat.min_id.
  rewrite (drop_ge (take _ _)) by (rewrite length_take; lia).
  rewrite app_nil_r. apply take_take_drop.
Qed.

Lemma PutObject_loop_result dev fuel : forall fd (orig : list byte) w w' r,
  fs w !! fd_name fd = Some (File (take (fd_pos fd) orig)) ->
  (fd_pos fd <= length orig)%nat ->
  PutObject_loop dev fuel fd (drop (fd_pos fd) orig) w = Some (w', r) ->
  r = None /\ descriptors w' = descriptors w /\
  (forall q, q <> fd_name fd -> fs w' !! q = fs w !! q) /\
  exists k, fs w' !! fd_name fd = Some (File (take k orig)).
Proof.
  induction fuel as [|fuel IH]; intros fd orig w w' r Hfile Hpos H.
  - destruct (drop (fd_pos fd) orig) eqn:E; [|discriminate].
    simpl in H. injection H as <- <-. repeat split. eauto.
  - destruct (drop (fd_pos fd) orig) as [|b bs] eqn:E.
    { simpl in H. injection H as <- <-. repeat split. eauto. }
    cbn [PutObject_loop] in H. rewrite <- E in H.
    rewrite (Write_extends dev fd orig w Hfile Hpos) in H.
    set (n := Nat.min (granted (dev (clock w))) (length orig - fd_pos fd)) in *.
    destruct (fault (dev (clock w))) as [e|].
    + replace (drop n (drop (fd_pos fd) orig)) with (drop (fd_pos fd + n) orig) in H
        by now rewrite drop_drop.
      apply (IH {| fd_name := fd_name fd; fd_pos := fd_pos fd + n |} orig) in H;
        simpl; [|apply lookup_insert_eq | lia].
      destruct H as (-> & Hd & Hframe & k & Hk). simpl in *.
      repeat split; auto.
      * intros q Hq. rewrite Hframe by assumption. now apply lookup_insert_ne.
      * eauto.
    + injection H as <- <-. simpl. repeat split.
      * intros q Hq. now apply lookup_insert_ne.
      * exists (fd_pos fd + n)%nat. apply lookup_insert_eq.
Qed.

(** X19: what [PutObject] can return.  An error comes from [Open] only, and
    then the tree is as it was; no error of [Write] is ever returned.  After
    nil the object holds some first part of the buffer, with nothing of an
    earlier object left in it.  In both cases no other file is touched and
    the descriptor is closed. *)
Theorem PutObject_result dev fuel conn key id buffer w w' r :
  PutObject dev fuel conn key id buffer w = Some (w', r) ->
  descriptors w' = descriptors w /\
  (forall q, q <> Join [root conn; dir conn; key] -> fs w' !! q = fs w !! q) /\
  match r with
  | Some e =>
      fs w' = fs w /\
      snd (Open dev (Join [root conn; dir conn; key])
             (Z.lor (Z.lor O_WRONLY O_CREAT) O_TRUNC) 420 w) = inr e
  | None => exists k, stored conn key w' = Some (take k buffer)
  end.
Proof.
  intros H. unfold PutObject in H.
  set (name := Join [root conn; dir conn; key]) in *.
  assert (Hcreated :
    forall w2 r2, name <> [] ->
      PutObject_loop dev fuel {| fd_name := name; fd_pos := 0 |} buffer
        (opened (with_fs (ticked w) (<[name := File []]> (fs w)))) = Some (w2, r2) ->
      descriptors (Close {| fd_name := name; fd_pos := 0 |} w2) = descriptors w /\
      (forall q, q <> name ->
         fs (Close {| fd_name := name; fd_pos := 0 |} w2) !! q = fs w !! q) /\
      r2 = None /\
      exists k, stored conn key (Close {| fd_name := name; fd_pos := 0 |} w2) =
                Some (take k buffer)).
  { intros w2 r2 Hne HL.
    apply (PutObject_loop_result dev fuel {| fd_name := name; fd_pos := 0 |} buffer) in HL;
      simpl; [|apply lookup_insert_eq | lia].
    destruct HL as (-> & Hd & Hframe & k & Hk). simpl in *.
    split; [now rewrite Hd|]. split.
    - intros q Hq. rewrite Hframe by assumption. now apply lookup_insert_ne.
    - split; [reflexivity|]. exists k. unfold stored. fold name. simpl.
      replace (Stat (fs w2) name) with (Some (File (take k buffer)));
        [reflexivity|].
      rewrite <- Hk. symmetry. now apply Stat_nonempty. }
  rewrite Open_for_writing in *. fold name in H |- *.
  destruct (fault (dev (clock w))) as [e|].
  { injection H as <- <-. simpl. repeat split. }
  destruct (Stat (fs w) name) as [[|c]|] eqn:HS.
  - injection H as <- <-. simpl. repeat split.
  - assert (Hne : name <> []) by (intros E; rewrite E in HS; discriminate).
    cbv zeta beta iota in H.
    destruct (PutObject_loop dev fuel _ buffer _) as [[w2 r2]|] eqn:EL; [|discriminate].
    injection H as <- <-.
    destruct (Hcreated _ _ Hne eq_refl) as (Hd & Hf & -> & Hk). auto.
  - destruct (Stat (fs w) (parent name)) as [[|c]|] eqn:HP;
      try (injection H as <- <-; simpl; now repeat split).
    assert (Hne : name <> []) by (intros E; rewrite E in HS; discriminate).
    cbv zeta beta iota in H.
    destruct (PutObject_loop dev fuel _ buffer _) as [[w2 r2]|] eqn:EL; [|discriminate].
    injection H as <- <-.
    destruct (Hcreated _ _ Hne eq_refl) as (Hd & Hf & -> & Hk). auto.
Qed.

Lemma PutObject_result_witness :
  exists w',
    PutObject stuttering_device 5 bench_conn "obj" 7
      ["001"%byte; "002"%byte; "003"%byte; "004"%byte] object_world = Some (w', None) /\
    stored bench_conn "obj" w' = Some ["001"%byte; "002"%byte; "003"%byte] /\
    (descriptors w' = descriptors object_world /\
     (forall q, q <> Join [root bench_conn; dir bench_conn; "obj"] ->
                fs w' !! q = fs object_world !! q) /\
     exists k, stored bench_conn "obj" w' =
               Some (take k ["001"%byte; "002"%byte; "003"%byte; "004"%byte])).
Proof.
  eexists. split; [vm_compute; reflexivity|]. split; [vm_compute; reflexivity|].
  apply (PutObject_result stuttering_device 5 bench_conn "obj" 7
           ["001"%byte; "002"%byte; "003"%byte; "004"%byte] object_world _ None).
  vm_compute. reflexivity.
Defined.

(** X23: [PutObject] does not make the directory.  In a tree where the
    place of the object is not inside a directory, [PutObject] returns an
    error after the one call to open, and the tree is as it was. *)
Theorem PutObject_needs_the_directory dev fuel conn key id buffer w :
  well_formed (fs w) ->
  Stat (fs w) (parent (Join [root conn; dir conn; key])) <> Some Dir ->
  exists e, PutObject dev fuel conn key id buffer w = Some (ticked w, Some e).
Proof.
  intros Hwf Hpar. unfold PutObject. rewrite Open_for_writing.
  set (name := Join [root conn; dir conn; key]) in *.
  destruct (fault (dev (clock w))) as [e|]; [eauto|].
  destruct (Stat (fs w) name) as [[|c]|] eqn:HS; [eauto | |].
  - assert (Hne : name <> []) by (intros E; rewrite E in HS; discriminate).
    rewrite (Stat_nonempty _ _ Hne) in HS.
    now destruct (Hwf _ _ HS) as [_ HD].
  - destruct (Stat (fs w) (parent name)) as [[|c]|]; [contradiction | eauto | eauto].
Qed.

Lemma PutObject_needs_the_directory_witness :
  exists e,
    PutObject good_device 3 absent_conn "obj" 7 ["001"%byte] object_world =
    Some (ticked object_world, Some e).
Proof.
  apply (PutObject_needs_the_directory good_device 3 absent_conn "obj" 7
           ["001"%byte] object_world).
  - exact object_world_well_formed.
  - vm_compute. discriminate.
Defined.

(** *** Writing and then reading *)

(** X21: an object that was put can be got.  With a device that reports no
    fault and takes or delivers a whole buffer in a call, in a state where
    the file can be made, [PutObject] returns nil and a [GetObject] after it
    into a buffer of the same size returns nil with the bytes that were put,
    and leaves the tree as [PutObject] left it. *)
Theorem PutObject_then_GetObject dev fuel fuel' conn key id id' buffer target w :
  (forall t, fault (dev t) = None /\
             (1 <= granted (dev t))%nat /\ (length buffer <= granted (dev t))%nat) ->
  match Stat (fs w) (Join [root conn; dir conn; key]) with
  | Some Dir => False
  | Some (File _) => True
  | None => Stat (fs w) (parent (Join [root conn; dir conn; key])) = Some Dir
  end ->
  cap target = length buffer -> len target = length buffer ->
  (length buffer <= fuel')%nat ->
  exists w1 w2,
    PutObject dev (S fuel) conn key id buffer w = Some (w1, None) /\
    stored conn key w1 = Some buffer /\
    GetObject dev fuel' conn key id' target w1 =
    Some (w2, {| data := buffer; len := len target |}, None) /\
    fs w2 = fs w1.
Proof.
  intros Hdev Hst Hcap Hlen Hfuel.
  set (name := Join [root conn; dir conn; key]) in *.
  assert (Hne : name <> []) by (intros E; rewrite E in Hst; exact Hst).
  assert (HO : Open dev name (Z.lor (Z.lor O_WRONLY O_CREAT) O_TRUNC) 420 w =
               (opened (with_fs (ticked w) (<[name := File []]> (fs w))),
                inl {| fd_name := name; fd_pos := 0 |})).
  { rewrite Open_for_writing. destruct (Hdev (clock w)) as [-> _].
    destruct (Stat (fs w) name) as [[|c]|]; [contradiction | reflexivity |].
    now rewrite Hst. }
  assert (HP : exists w1,
             PutObject dev (S fuel) conn key id buffer w = Some (w1, None) /\
             stored conn key w1 = Some buffer).
  { unfold PutObject. fold name. rewrite HO.
    destruct buffer as [|b bs].
    - simpl. eexists. split; [reflexivity|]. unfold stored. fold name. simpl.
      replace (Stat (<[name := File []]> (fs w)) name) with (Some (File []));
        [reflexivity|].
      rewrite (Stat_nonempty _ _ Hne). symmetry. apply lookup_insert_eq.
    - cbn [PutObject_loop].
      pose proof (Write_extends dev {| fd_name := name; fd_pos := 0 |} (b :: bs)
                    (opened (with_fs (ticked w) (<[name := File []]> (fs w))))) as HW.
      simpl in HW. rewrite HW by (try apply lookup_insert_eq; lia). clear HW.
      destruct (Hdev (S (clock w))) as (-> & _ & Hg).
      eexists. split; [reflexivity|]. unfold stored. fold name. simpl.
      rewrite Nat.min_r by (simpl in Hg; lia).
      replace (Stat _ name) with (Some (File (b :: bs))); [reflexivity|].
      rewrite (Stat_nonempty _ _ Hne). symmetry.
      rewrite lookup_insert_eq. f_equal. f_equal. simpl. f_equal.
      apply take_ge. lia. }
  destruct HP as (w1 & HP & Hs). exists w1.
  destruct (GetObject_returns_nil dev fuel' conn key id' target w1 buffer)
    as (w2 & HG); auto.
  { intros t. destruct (Hdev t) as (? & ? & _). now split. }
  exists w2. repeat split; auto.
  now apply GetObject_fs in HG.
Qed.

Lemma PutObject_then_GetObject_witness :
  exists w1 w2,
    PutObject good_device 1 bench_conn "new" 7 ["007"%byte; "008"%byte; "009"%byte]
      object_world = Some (w1, None) /\
    stored bench_conn "new" w1 = Some ["007"%byte; "008"%byte; "009"%byte] /\
    GetObject good_device 3 bench_conn "new" 9
      {| data := ["000"%byte; "000"%byte; "000"%byte]; len := 3 |} w1 =
    Some (w2, {| data := ["007"%byte; "008"%byte; "009"%byte]; len := 3 |}, None) /\
    fs w2 = fs w1.
Proof.
  apply (PutObject_then_GetObject good_device 0 3 bench_conn "new" 7 9
           ["007"%byte; "008"%byte; "009"%byte]
           {| data := ["000"%byte; "000"%byte; "000"%byte]; len := 3 |} object_world).
  - intros t. simpl. repeat split; lia.
  - reflexivity.
  - reflexivity.
  - reflexivity.
  - simpl. lia.
Defined.

(** *** Reading into a slice shorter than its capacity *)

Lemma GetObject_loop_never_ends dev fuel : forall fd buffer start w c,
  (forall t, fault (dev t) = None) ->
  fs w !! fd_name fd = Some (File c) ->
  (start <= len buffer)%nat -> (len buffer < length c)%nat ->
  GetObject_loop dev fuel fd buffer start
    (Z.of_nat (length c) - Z.of_nat start)%Z w = None.
Proof.
  induction fuel as [|fuel IH]; intros fd buffer start w c Hdev Hfile Hs Hl; simpl.
  - destruct (Z.of_nat (length c) - Z.of_nat start >? 0)%Z eqn:E; [reflexivity|].
    rewrite Z.gtb_ltb in E. apply Z.ltb_ge in E. lia.
  - destruct (Z.of_nat (length c) - Z.of_nat start >? 0)%Z eqn:E;
      [|rewrite Z.gtb_ltb in E; apply Z.ltb_ge in E; lia].
    unfold Read, ask. simpl. rewrite Hfile, Hdev.
    set (n := Nat.min _ _).
    assert (Hn : (n <= len buffer - start)%nat) by (subst n; lia).
    replace (Z.of_nat (length c) - Z.of_nat start - Z.of_nat n)%Z
      with (Z.of_nat (length c) - Z.of_nat (start + n))%Z by lia.
    apply IH; simpl; auto; lia.
Qed.

(** X22: the size test of [GetObject] is on the capacity and the reads are
    into the slice.  When the stored object has the size of the capacity
    but the slice is shorter than its capacity, and the device reports no
    fault, [GetObject] does not return: the slice fills up, every further
    read transfers nothing, and the loop is still running after any number
    of calls. *)
Theorem GetObject_short_slice_never_returns dev fuel conn key id buffer w c :
  (forall t, fault (dev t) = None) ->
  stored conn key w = Some c ->
  cap buffer = length c -> (len buffer < cap buffer)%nat ->
  GetObject dev fuel conn key id buffer w = None.
Proof.
  intros Hdev Hc Hcap Hlen. unfold GetObject. rewrite Open_rdonly, Hdev.
  pose proof (proj1 (stored_lookup conn key w c) Hc) as HS. rewrite HS.
  apply Stat_file_lookup in HS.
  rewrite (Size_of_file _ _ (opened (ticked w)) c) by exact HS.
  rewrite Hdev, Hcap, Z.eqb_refl. simpl.
  replace (Z.of_nat (length c)) with (Z.of_nat (length c) - Z.of_nat 0)%Z by lia.
  rewrite GetObject_loop_never_ends; auto; simpl; lia.
Qed.

Lemma GetObject_short_slice_never_returns_witness :
  GetObject one_byte_device 100 bench_conn "obj" 7
    {| data := ["000"%byte; "000"%byte]; len := 1 |} object_world = None.
Proof.
  apply (GetObject_short_slice_never_returns one_byte_device 100 bench_conn "obj" 7
           {| data := ["000"%byte; "000"%byte]; len := 1 |} object_world
           ["001"%byte; "002"%byte]).
  - reflexivity.
  - reflexivity.
  - reflexivity.
  - unfold cap. simpl. lia.
Defined.

(** *** Reading after the directory was deleted *)



(** *** When the directory can be created *)

Lemma MkdirAll_rev_succeeds (rp : list string) (perm : Z) (w : World) :
  privileged w = true ->
  Forall (fun c => (String.length c <= NAME_MAX)%nat) rp ->
  (path_bytes (rev rp) < PATH_MAX)%nat ->
  (forall q c, q `prefix_of` rev rp -> fs w !! q <> Some (File c)) ->
  snd (MkdirAll_rev rp perm w) = None.
Proof.
  intros Hpriv. revert w Hpriv.
  induction rp as [|x rparent IH]; intros w Hpriv Hlen Hbytes Hno; [reflexivity|].
  rewrite MkdirAll_rev_cons.
  change (rev (x :: rparent)) with (rev rparent ++ [x]) in Hno, Hbytes.
  rewrite path_bytes_snoc in Hbytes.
  pose proof (snoc_nonempty (rev rparent) x) as Hne.
  inversion Hlen as [|? ? Hx Hrest]; subst.
  destruct (Stat (fs w) (rev rparent ++ [x])) as [[|c]|] eqn:HS; [reflexivity | |].
  { rewrite (Stat_nonempty _ _ Hne) in HS. now destruct (Hno _ c (reflexivity _)). }
  assert (HI : snd (MkdirAll_rev rparent perm w) = None).
  { apply IH; auto; [lia|]. intros q c Hq. apply Hno. now apply prefix_app_r. }
  destruct (MkdirAll_rev rparent perm w) as [w1 err] eqn:E. simpl in HI. subst err.
  destruct (MkdirAll_rev_spec _ _ _ _ _ E) as [Hframe Hdir].
  destruct (MkdirAll_rev_fields _ _ _ _ _ E) as (_ & _ & Hp & _).
  rewrite Hpriv in Hp.
  rewrite Mkdir_fresh; [reflexivity | | | | | |].
  - rewrite (Stat_nonempty _ _ Hne), Hframe;
      [now rewrite <- (Stat_nonempty _ _ Hne)|].
    intros Hpre. apply prefix_length in Hpre.
    rewrite length_app in Hpre. simpl in Hpre. lia.
  - now rewrite parent_snoc.
  - now apply allowed_privileged.
  - now apply allowed_privileged.
  - now rewrite last_last.
  - rewrite path_bytes_snoc. lia.
Qed.

(** X25: for a privileged process, [CreateDirectory] returns nil, and the
    directory is there after it, whenever the path is not the empty string,
    none of its components is longer than 255 bytes, the whole path is
    shorter than 4096 bytes, and no file lies on the way to the directory
    or in its place. *)
Theorem CreateDirectory_succeeds conn w :
  privileged w = true ->
  filepath_Join [root conn; dir conn] <> Nowhere ->
  Forall (fun c => (String.length c <= NAME_MAX)%nat) (Join [root conn; dir conn]) ->
  (path_bytes (Join [root conn; dir conn]) < PATH_MAX)%nat ->
  (forall q c, q `prefix_of` Join [root conn; dir conn] -> fs w !! q <> Some (File c)) ->
  snd (CreateDirectory conn w) = None /\
  Stat (fs (fst (CreateDirectory conn w))) (Join [root conn; dir conn]) = Some Dir.
Proof.
  intros Hpriv Hsome Hlen Hbytes Hno. unfold CreateDirectory, MkdirAll.
  destruct (filepath_Join_cases [root conn; dir conn]) as [[E _]|E];
    [contradiction|]. rewrite E.
  pose proof (MkdirAll_rev_succeeds (rev (Join [root conn; dir conn])) 420 w Hpriv) as HS.
  rewrite rev_involutive in HS.
  specialize (HS (List.Forall_rev Hlen) Hbytes Hno).
  destruct (MkdirAll_rev (rev (Join [root conn; dir conn])) 420 w) as [w' r] eqn:EM.
  simpl in *. subst r. split; [reflexivity|].
  destruct (MkdirAll_rev_spec _ _ _ _ _ EM) as [_ Hres].
  now rewrite rev_involutive in Hres.
Qed.

Lemma CreateDirectory_succeeds_witness :
  snd (CreateDirectory absent_conn object_world) = None /\
  Stat (fs (fst (CreateDirectory absent_conn object_world)))
    (Join [root absent_conn; dir absent_conn]) = Some Dir.
Proof.
  apply (CreateDirectory_succeeds absent_conn object_world).
  - reflexivity.
  - discriminate.
  - repeat constructor; unfold NAME_MAX; simpl; lia.
  - unfold PATH_MAX. simpl. lia.
  - intros q c Hq. change (q `prefix_of` ["mnt"; "ceph"; "other"]) in Hq.
    destruct Hq as [k Hk].
    destruct q as [|a [|b [|d [|y q]]]]; simpl in Hk; simplify_eq;
      vm_compute; discriminate.
Defined.

(** *** What the permission bits 0644 do *)

(** A directory made with the bits 0644 has no search bit, whatever the
    umask. *)
Lemma no_search_bit (u : Z) : has_flag (Z.ldiff 420 u) S_IXUSR = false.
Proof.
  unfold has_flag, S_IXUSR.
  replace (Z.land (Z.ldiff 420 u) 64) with 0%Z; [reflexivity|].
  symmetry. apply Z.bits_inj'. intros n Hn.
  rewrite Z.land_spec, Z.ldiff_spec, Z.bits_0.
  destruct (Z.eq_dec n 6%Z) as [->|Hn6]; [reflexivity|].
  change 64%Z with (2 ^ 6)%Z. rewrite Z.pow2_bits_eqb by lia.
  replace (6 =? n)%Z with false by (symmetry; apply Z.eqb_neq; lia).
  apply andb_false_r.
Qed.

(** X26: a process that is not privileged cannot make two levels.  When
    the directory and its parent are both missing, in a directory that the
    process may search and write to, [CreateDirectory] makes the parent,
    with the bits 0644 less the umask, and then fails with EACCES, because
    these bits do not let it search the parent.  The parent stays, and a
    second call fails in the same way. *)
Theorem CreateDirectory_two_levels conn w p x y :
  privileged w = false ->
  Join [root conn; dir conn] = p ++ [x; y] ->
  Stat (fs w) p = Some Dir ->
  allowed w p S_IXUSR = true -> allowed w p S_IWUSR = true ->
  (String.length x <= NAME_MAX)%nat ->
  (path_bytes (p ++ [x; y]) < PATH_MAX)%nat ->
  fs w !! (p ++ [x]) = None -> fs w !! (p ++ [x; y]) = None ->
  let w1 := made w (p ++ [x]) (Z.ldiff 420 (umask w)) in
  CreateDirectory conn w = (w1, Some (Errno "EACCES")) /\
  CreateDirectory conn w1 = (w1, Some (Errno "EACCES")).
Proof.
  intros Hpriv HJ Hp Hx Hw Hlen Hbytes Hpx Hpxy w1.
  assert (E2 : p ++ [x; y] = (p ++ [x]) ++ [y]) by now rewrite <- app_assoc.
  rewrite E2 in HJ, Hpxy, Hbytes.
  assert (Hne : Join [root conn; dir conn] <> []).
  { rewrite HJ. apply snoc_nonempty. }
  assert (H1 : MkdirAll_rev (y :: x :: rev p) 420 w = (w1, Some (Errno "EACCES"))).
  { rewrite MkdirAll_rev_cons. cbn [rev]. rewrite rev_involutive.
    rewrite (Stat_nonempty _ _ (snoc_nonempty (p ++ [x]) y)), Hpxy.
    rewrite MkdirAll_rev_cons, rev_involutive.
    rewrite (Stat_nonempty _ _ (snoc_nonempty p x)), Hpx.
    rewrite MkdirAll_rev_dir by now rewrite rev_involutive.
    assert (HM : Mkdir w (p ++ [x]) 420 = (w1, None)).
    { apply Mkdir_fresh; rewrite ?parent_snoc, ?last_last; auto.
      - now rewrite (Stat_nonempty _ _ (snoc_nonempty p x)).
      - rewrite path_bytes_snoc in Hbytes. lia. }
    rewrite HM.
    assert (HM2 : Mkdir w1 ((p ++ [x]) ++ [y]) 420 = (w1, Some (Errno "EACCES"))).
    { unfold Mkdir. apply Nat.leb_gt in Hbytes. rewrite Hbytes, parent_snoc.
      replace (Stat (fs w1) (p ++ [x])) with (Some Dir).
      2:{ rewrite (Stat_nonempty _ _ (snoc_nonempty p x)). subst w1. simpl.
          symmetry. apply lookup_insert_eq. }
      replace (allowed w1 (p ++ [x]) S_IXUSR) with false; [reflexivity|].
      unfold allowed, mode_of. subst w1. unfold made. cbn [privileged modes].
      now rewrite Hpriv, lookup_insert_eq, no_search_bit. }
    rewrite HM2.
    replace (Stat (fs w1) ((p ++ [x]) ++ [y])) with (@None node); [reflexivity|].
    rewrite (Stat_nonempty _ _ (snoc_nonempty (p ++ [x]) y)). subst w1. simpl.
    rewrite lookup_insert_ne; [now rewrite Hpxy|].
    intros E. apply (f_equal (@length string)) in E.
    rewrite !length_app in E. simpl in E. lia. }
  unfold CreateDirectory, MkdirAll. rewrite (filepath_Join_at _ Hne), HJ.
  replace (rev ((p ++ [x]) ++ [y])) with (y :: x :: rev p)
    by (now rewrite !rev_app_distr).
  split; [exact H1 | exact (MkdirAll_rev_idempotent _ _ _ _ _ H1)].
Qed.

Lemma CreateDirectory_two_levels_witness :
  let conn := {| root := "/mnt"; dir := "bench" |} in
  let w1 := made user_world ["mnt"] 420 in
  CreateDirectory conn user_world = (w1, Some (Errno "EACCES")) /\
  CreateDirectory conn w1 = (w1, Some (Errno "EACCES")).
Proof.
  intros conn w1.
  apply (CreateDirectory_two_levels conn user_world [] "mnt" "bench");
    try reflexivity.
  - unfold NAME_MAX. simpl. lia.
  - unfold PATH_MAX. simpl. lia.
Defined.

End FileConnCoverage.
